(** * TinyMod4 for Plover: a shallow embedding of [plover_tinymod4_main.py]

  The Python module has three classes.  [ForthStack] is the circular data
  stack, [TinyMod4Machine] scans the key matrix and decodes chords, and
  [TinyMod4Extension] queues output actions and writes HID reports.  Each
  class is embedded in a module of the same name; Python integers are [Z],
  Python lists are [list], a raised exception is [None]. *)

From Stdlib Require Import ZArith.
From Stdlib.Strings Require Import Ascii String Byte.
From stdpp Require Import base numbers option list strings.

Open Scope Z_scope.

(** ** Python list indexing

  [l[i]] accepts [-len(l) <= i < len(l)], a negative index counting from
  the end, and raises [IndexError] otherwise. *)

Definition py_index {A} (l : list A) (i : Z) : option nat :=
let n := Z.of_nat (length l) in
if decide (0 <= i < n) then Some (Z.to_nat i)
else if decide (- n <= i < 0) then Some (Z.to_nat (n + i))
else None.

Definition py_getitem {A} (l : list A) (i : Z) : option A :=
k ← py_index l i; l !! k.

Definition py_setitem {A} (l : list A) (i : Z) (x : A) : option (list A) :=
k ← py_index l i; Some (<[k:=x]> l).

(** Python truthiness of an integer: [if n:] runs the branch when [n] is not
  zero. *)
Definition truthy (n : Z) : bool := negb (n =? 0).

(** ** class ForthStack *)

Module ForthStack.

Record t := mk {
  _stackSize : Z;
  _stackMask : Z;
  _stack : list Z;
  _p : Z
}.

(** [__init__]: [[0] * stackSize], pointer at 0. *)
Definition init (stackSize stackMask : Z) : t :=
  mk stackSize stackMask (replicate (Z.to_nat stackSize) 0) 0.

Definition push (n : Z) (s : t) : option t :=
  let p := Z.land (_p s + 1) (_stackMask s) in
  stack ← py_setitem (_stack s) p n;
  Some (mk (_stackSize s) (_stackMask s) stack p).

Definition pop (s : t) : option (Z * t) :=
  n ← py_getitem (_stack s) (_p s);
  Some (n, mk (_stackSize s) (_stackMask s) (_stack s)
              (Z.land (_p s - 1) (_stackMask s))).

Definition drop (s : t) : option t :=
  '(_, s) ← pop s; Some s.

(** [for _ in range(1, n)] runs its body [max 0 (n - 1)] times. *)
Fixpoint times (n : nat) (f : t -> option t) (s : t) : option t :=
  match n with
  | O => Some s
  | S n => s ← f s; times n f s
  end.

Definition back (s : t) : option t :=
  times (Z.to_nat (_stackSize s - 1)) drop s.

Definition dup (s : t) : option t :=
  n ← py_getitem (_stack s) (_p s);
  push n s.

Definition swap (s : t) : option t :=
  '(a, s) ← pop s;
  '(b, s) ← pop s;
  s ← push a s;
  push b s.

Definition over (s : t) : option t :=
  '(a, s) ← pop s;
  '(b, s) ← pop s;
  s ← push b s;
  s ← push a s;
  push b s.

(** The four binary words share one shape: pop [a], then overwrite the new
    top of stack with [f a tos]. *)
Definition binop (f : Z -> Z -> Z) (s : t) : option t :=
  '(a, s) ← pop s;
  x ← py_getitem (_stack s) (_p s);
  stack ← py_setitem (_stack s) (_p s) (f a x);
  Some (mk (_stackSize s) (_stackMask s) stack (_p s)).

Definition add : t -> option t := binop Z.add.
Definition and_ : t -> option t := binop Z.land.
Definition or_ : t -> option t := binop Z.lor.
Definition xor : t -> option t := binop Z.lxor.

Definition unop (f : Z -> Z) (s : t) : option t :=
  x ← py_getitem (_stack s) (_p s);
  stack ← py_setitem (_stack s) (_p s) (f x);
  Some (mk (_stackSize s) (_stackMask s) stack (_p s)).

(** Python's [~x] on an unbounded integer is [-x - 1]. *)
Definition invert : t -> option t := unop Z.lnot.
Definition negate : t -> option t := unop Z.opp.

(** The words of the stack, for talking about arbitrary call sequences. *)
Inductive word :=
| Push (n : Z) | Pop | Drop | Dup | Swap | Over | Back
| Add | And | Or | Xor | Invert | Negate.

Definition exec (w : word) (s : t) : option t :=
  match w with
  | Push n => push n s
  | Pop => snd <$> pop s
  | Drop => drop s
  | Dup => dup s
  | Swap => swap s
  | Over => over s
  | Back => back s
  | Add => add s
  | And => and_ s
  | Or => or_ s
  | Xor => xor s
  | Invert => invert s
  | Negate => negate s
  end.

Fixpoint run (ws : list word) (s : t) : option t :=
  match ws with
  | [] => Some s
  | w :: ws => s ← exec w s; run ws s
  end.

(** The constructor's contract (comment above the class): the number of
    items is a power of two, here [2 ^ k], and the mask is one less.  The
    invariant adds that the list keeps its length and that the pointer is an
    index into it. *)
Definition wf (k : nat) (s : t) : Prop :=
  _stackSize s = 2 ^ Z.of_nat k /\
  _stackMask s = 2 ^ Z.of_nat k - 1 /\
  Z.of_nat (length (_stack s)) = 2 ^ Z.of_nat k /\
  0 <= _p s <= 2 ^ Z.of_nat k - 1.

End ForthStack.


(** ** Loops

    A [while] loop is run with fuel; [None] means that the loop has no result
    within it (or that its body raised).  [while_return] is the loop whose
    body may execute a [return]. *)

Fixpoint while {S} (fuel : nat) (cond : S -> bool) (body : S -> option S)
    (s : S) : option S :=
  if cond s then
    match fuel with
    | O => None
    | Datatypes.S fuel => s ← body s; while fuel cond body s
    end
  else Some s.

Inductive flow (S R : Type) :=
| Next (s : S)
| Return (r : R) (s : S).
Arguments Next {S R} s.
Arguments Return {S R} r s.

Fixpoint while_return {S R} (fuel : nat) (cond : S -> bool)
    (body : S -> option (flow S R)) (s : S) : option (flow S R) :=
  if cond s then
    match fuel with
    | O => None
    | Datatypes.S fuel =>
        match body s with
        | Some (Next s) => while_return fuel cond body s
        | Some (Return r s) => Some (Return r s)
        | None => None
        end
    end
  else Some (Next s).

(** ** class TinyMod4Machine *)

Module TinyMod4Machine.

(** The states of [plover.machine.base], set by [_stopped], [_initializing],
    [_ready] and [_error]. *)
Inductive machine_state :=
| STATE_STOPPED | STATE_INITIALIZING | STATE_RUNNING | STATE_ERROR.

(** What the machine does to its surroundings.  [time.sleep] takes seconds;
    the two delays of the source, 0.03 and 0.5, are recorded in
    milliseconds. *)
Inductive event :=
| Sleep (ms : Z)
| Warning (msg : string)
| Notify (steno_keys : list string).

(** The host's key map: only [keys_to_actions] is called. *)
Record Keymap := { keys_to_actions : list string -> list string }.

(** One snapshot of the board: whether some call in the [try] block of
    [_connect] ([io.setup], [smbus.SMBus], [write_byte_data], [io.input])
    raises, what [io.input] returns for a pin, what [read_byte_data] returns
    for an address and a register. *)
Record hw := {
  setup_raises : bool;
  io_input : Z -> Z;
  read_byte_data : Z -> Z -> Z
}.

Record t := mk {
  keymap : Keymap;
  _pressed : bool;
  _stack : ForthStack.t;
  _modeSelectPin : Z;
  state : machine_state;
  finished : bool;
  log : list event
}.

Definition init (km : Keymap) : t :=
  mk km false (ForthStack.init 8 7) 12 STATE_STOPPED false [].

Definition set_pressed (b : bool) (m : t) : t :=
  mk (keymap m) b (_stack m) (_modeSelectPin m) (state m) (finished m) (log m).

Definition set_stack (st : ForthStack.t) (m : t) : t :=
  mk (keymap m) (_pressed m) st (_modeSelectPin m) (state m) (finished m)
     (log m).

Definition set_state (s : machine_state) (m : t) : t :=
  mk (keymap m) (_pressed m) (_stack m) (_modeSelectPin m) s (finished m)
     (log m).

Definition emit (e : event) (m : t) : t :=
  mk (keymap m) (_pressed m) (_stack m) (_modeSelectPin m) (state m)
     (finished m) (log m ++ [e]).

Definition _initializing : t -> t := set_state STATE_INITIALIZING.
Definition _ready : t -> t := set_state STATE_RUNNING.
Definition _error : t -> t := set_state STATE_ERROR.
Definition _stopped : t -> t := set_state STATE_STOPPED.

(** [_connect]: the result is the returned [connected] and the machine. *)
Definition _connect (h : hw) (m : t) : bool * t :=
  let connected := false in
  let m := _initializing m in
  if setup_raises h then
    let m := emit (Warning "Error setting up TinyMod4") m in
    let m := _error m in
    (connected, m)
  else if truthy (io_input h (_modeSelectPin m)) then
    let m :=
      emit (Warning "NKRO not selected on board. TinyMod4 plugin Disabled.") m
    in
    let m := _error m in
    (connected, m)
  else
    let m := _ready m in
    let connected := true in
    (connected, m).

(** [_reconnect]: each call of [_connect] sees the next snapshot of [hs].
    The result is [Some c] for [return c] and [None] when the function falls
    off its end, then the machine and the snapshots not yet used. *)
Definition _reconnect (fuel : nat) (hs : list hw) (m : t)
    : option (option bool * t * list hw) :=
  match hs with
  | [] => None
  | h :: hs =>
      let '(connected, m) := _connect h m in
      r ← while_return fuel
            (fun '(connected, m, hs) => negb (finished m) && negb connected)
            (fun '(connected, m, hs) =>
               let m := emit (Sleep 500) m in
               match hs with
               | [] => None
               | h :: hs =>
                   let '(connected, m) := _connect h m in
                   Some (Return connected (connected, m, hs))
               end)
            (connected, m, hs);
      match r with
      | Return c (_, m, hs) => Some (Some c, m, hs)
      | Next (_, m, hs) => Some (None, m, hs)
      end
  end.

Definition _on_stroke (keys : list string) (m : t) : t :=
  let steno_keys := keys_to_actions (keymap m) keys in
  match steno_keys with
  | [] => m
  | _ :: _ => emit (Notify steno_keys) m
  end.

(** The nine pins packed by [_read_raw_keys], before the inversion. *)
Definition raw_bits (h : hw) : Z :=
  let a := 0 in
  let a := Z.lor a (io_input h 16) in
  let a := Z.lor a (Z.shiftl (io_input h 20) 1) in
  let a := Z.lor a (Z.shiftl (io_input h 21) 2) in
  let a := Z.lor a (Z.shiftl (io_input h 1) 3) in
  let a := Z.lor a (Z.shiftl (io_input h 26) 4) in
  let a := Z.lor a (Z.shiftl (io_input h 19) 5) in
  let a := Z.lor a (Z.shiftl (io_input h 13) 6) in
  let a := Z.lor a (Z.shiftl (io_input h 6) 7) in
  let a := Z.lor a (Z.shiftl (io_input h 0) 8) in
  a.

Definition _read_raw_keys (h : hw) (m : t) : option t :=
  let a := raw_bits h in
  let a := Z.lxor a 0x01ff in
  st ← ForthStack.push a (_stack m);
  Some (set_stack st m).

(** The two expander registers joined by [_read_ab], before the inversion. *)
Definition expander_word (h : hw) : Z :=
  let a := read_byte_data h 0x20 0x12 in
  let b := read_byte_data h 0x20 0x13 in
  let a := Z.lor a (Z.shiftl b 8) in
  a.

Definition _read_ab (h : hw) (m : t) : option t :=
  let a := expander_word h in
  let a := Z.lxor a 0xffff in
  st ← ForthStack.push a (_stack m);
  Some (set_stack st m).

(** [_read_all] up to and including [a = self._stack.pop()]: the popped [a]
    and the machine at that point. *)
Definition read_all_merged (h : hw) (m : t) : option (Z * t) :=
  let m := set_pressed true m in
  m ← _read_raw_keys h m;
  m ← _read_ab h m;
  st ← ForthStack.over (_stack m);
  st ← ForthStack.over st;
  st ← ForthStack.or_ st;
  '(a, st) ← ForthStack.pop st;
  Some (a, set_stack st m).

Definition _read_all (h : hw) (m : t) : option t :=
  '(a, m) ← read_all_merged h m;
  if a =? 0 then Some (set_pressed false m) else Some m.

(** [_scan] polls the board; every [_read_all] sees the next snapshot of the
    list, and there is no result when the list runs out. *)
Definition read_next (s : t * list hw) : option (t * list hw) :=
  match s.2 with
  | [] => None
  | h :: hs => m ← _read_all h s.1; Some (m, hs)
  end.

(** The body of the outer waiting loop: poll until a key is seen, let it
    settle, poll once more. *)
Definition scan_settle (fuel : nat) (s : t * list hw) : option (t * list hw) :=
  s ← while fuel (fun s => negb (_pressed s.1)) read_next s;
  let s := (emit (Sleep 30) s.1, s.2) in
  read_next s.

(** The body of the accumulating loop, with the locals [a] and [b]. *)
Definition scan_accumulate (x : t * list hw * Z * Z)
    : option (t * list hw * Z * Z) :=
  let '(s, a, b) := x in
  '(m, hs) ← read_next s;
  '(x, st) ← ForthStack.pop (_stack m);
  let b := Z.lor b x in
  '(x, st) ← ForthStack.pop st;
  let a := Z.lor a x in
  Some (set_stack st m, hs, a, b).

(** The two pushes that end [_scan] and hand [a] and [b] over to [_send]. *)
Definition push_masks (a b : Z) (m : t) : option t :=
  st ← ForthStack.push a (_stack m);
  st ← ForthStack.push b st;
  Some (set_stack st m).

Definition _scan (fuel : nat) (m : t) (hs : list hw) : option (t * list hw) :=
  s ← while fuel (fun s => negb (_pressed s.1)) (scan_settle fuel) (m, hs);
  let a := 0 in
  let b := 0 in
  '(s, a, b) ← while fuel (fun '(s, a, b) => _pressed s.1) scan_accumulate
                 (s, a, b);
  m ← push_masks a b s.1;
  Some (m, s.2).

Definition append_if (c : Z) (k : string) (keys : list string) : list string :=
  if truthy c then keys ++ [k] else keys.

(** The chain of [if]s of [_send], in the order of the source. *)
Definition decode (a b : Z) : list string :=
  let keys := [] in
  let keys := append_if (Z.land a 0x10) "S1-" keys in
  let keys := append_if (Z.land a 0x08) "S2-" keys in
  let keys := append_if (Z.land a 0x20) "T-" keys in
  let keys := append_if (Z.land a 0x04) "K-" keys in
  let keys := append_if (Z.land a 0x40) "P-" keys in
  let keys := append_if (Z.land a 0x02) "W-" keys in
  let keys := append_if (Z.land a 0x80) "H-" keys in
  let keys := append_if (Z.land a 0x01) "R-" keys in
  let keys := append_if (Z.land b 0x08) "A-" keys in
  let keys := append_if (Z.land b 0x10) "O-" keys in
  let keys := append_if (Z.land a 0x100) "*1" keys in
  let keys := append_if (Z.land b 0x200) "*2" keys in
  let keys := append_if (Z.land b 0x20) "#1" keys in
  let keys := append_if (Z.land b 0x40) "-E" keys in
  let keys := append_if (Z.land b 0x80) "-U" keys in
  let keys := append_if (Z.land b 0x8000) "-F" keys in
  let keys := append_if (Z.land b 0x01) "-R" keys in
  let keys := append_if (Z.land b 0x4000) "-P" keys in
  let keys := append_if (Z.land b 0x02) "-B" keys in
  let keys := append_if (Z.land b 0x2000) "-L" keys in
  let keys := append_if (Z.land b 0x04) "-G" keys in
  let keys := append_if (Z.land b 0x1000) "-T" keys in
  let keys := append_if (Z.land b 0x800) "-S" keys in
  let keys := append_if (Z.land b 0x100) "-D" keys in
  let keys := append_if (Z.land b 0x400) "-Z" keys in
  keys.

Definition _send (m : t) : option t :=
  '(b, st) ← ForthStack.pop (_stack m);
  '(a, st) ← ForthStack.pop st;
  let m := set_stack st m in
  let keys := decode a b in
  match keys with
  | [] => Some m
  | _ :: _ => Some (_on_stroke keys m)
  end.

(** *** Vocabulary for the statements about the machine *)

(** The machine's stack is the one [__init__] builds, [ForthStack(8, 7)]. *)
Definition stack_ok (m : t) : Prop := ForthStack.wf 3 (_stack m).

(** The two inverted sub-masks of a snapshot, as pushed by [_read_raw_keys]
    and [_read_ab]. *)
Definition mask_a (h : hw) : Z := Z.lxor (raw_bits h) 0x01ff.
Definition mask_b (h : hw) : Z := Z.lxor (expander_word h) 0xffff.

(** The merge in the words of the specification: the bitwise OR of the two
    inverted sub-masks. *)
Definition merged_mask_spec (rawBits expanderWord : Z) : Z :=
  Z.lor (Z.lxor rawBits 0x1ff) (Z.lxor expanderWord 0xffff).

(** Whether a snapshot shows some key down. *)
Definition keys_down (h : hw) : bool :=
  negb (Z.lor (mask_b h) (mask_a h) =? 0).

Definition carries (a b : Z) (h : hw) : Prop := mask_a h = a /\ mask_b h = b.

(** The union of the sub-masks of a run of snapshots. *)
Definition union_step (ab : Z * Z) (h : hw) : Z * Z :=
  (Z.lor ab.1 (mask_a h), Z.lor ab.2 (mask_b h)).

Definition union_masks (hs : list hw) : Z * Z := foldl union_step (0, 0) hs.

(** The pair that [_scan] leaves on the stack, read the way [_send] reads
    it: [b] on top, [a] below. *)
Definition accumulated (m : t) : option (Z * Z) :=
  '(b, st) ← ForthStack.pop (_stack m);
  '(a, _) ← ForthStack.pop st;
  Some (a, b).

(** The snapshots on which the waiting loops of [_scan] end: polls that
    show nothing, a poll that shows a key, and the poll after the settle
    delay; when that last poll shows nothing the waiting starts again. *)
Inductive waits : list hw -> Prop :=
| waits_done idle d c :
    Forall (fun h => keys_down h = false) idle ->
    keys_down d = true -> keys_down c = true ->
    waits (idle ++ [d; c])
| waits_again idle d c hs :
    Forall (fun h => keys_down h = false) idle ->
    keys_down d = true -> keys_down c = false ->
    waits hs ->
    waits (idle ++ d :: c :: hs).

(** A board whose nine pins read the bits of [raw] and whose two registers
    read the low and the high byte of [word]; the mode pin reads [mode]. *)
Definition board (mode raw word : Z) : hw :=
  {| setup_raises := false;
     io_input := fun pin =>
       if pin =? 16 then Z.land raw 1
       else if pin =? 20 then Z.land (Z.shiftr raw 1) 1
       else if pin =? 21 then Z.land (Z.shiftr raw 2) 1
       else if pin =? 1 then Z.land (Z.shiftr raw 3) 1
       else if pin =? 26 then Z.land (Z.shiftr raw 4) 1
       else if pin =? 19 then Z.land (Z.shiftr raw 5) 1
       else if pin =? 13 then Z.land (Z.shiftr raw 6) 1
       else if pin =? 6 then Z.land (Z.shiftr raw 7) 1
       else if pin =? 0 then Z.land (Z.shiftr raw 8) 1
       else mode;
     read_byte_data := fun _ reg =>
       if reg =? 0x12 then Z.land word 0xff
       else Z.land (Z.shiftr word 8) 0xff |}.

(** The key map [__init__] installs maps every key to itself. *)
Definition identity_keymap : Keymap := {| keys_to_actions := fun keys => keys |}.

(** *** The caller, and vocabulary for further statements *)

(** The body of the loop of [run]: scan one chord, send it. *)
Definition run_step (fuel : nat) (s : t * list hw) : option (t * list hw) :=
  '(m, hs) ← _scan fuel s.1 s.2;
  m ← _send m;
  Some (m, hs).

(** The strokes notified so far, oldest first. *)
Definition strokes (evs : list event) : list (list string) :=
  omap (fun e => match e with Notify keys => Some keys | _ => None end) evs.

(** The names in the order of the [if] chain of [_send]. *)
Definition steno_order : list string :=
  ["S1-"; "S2-"; "T-"; "K-"; "P-"; "W-"; "H-"; "R-"; "A-"; "O-"; "*1"; "*2";
   "#1"; "-E"; "-U"; "-F"; "-R"; "-P"; "-B"; "-L"; "-G"; "-T"; "-S"; "-D";
   "-Z"].

(** The [if] chain of [_send] as a table: the mask that is tested ([false]
    for [a], [true] for [b]), the bit, the name. *)
Definition key_table : list (bool * Z * string) :=
  [ (false, 0x10, "S1-"); (false, 0x08, "S2-"); (false, 0x20, "T-");
    (false, 0x04, "K-"); (false, 0x40, "P-"); (false, 0x02, "W-");
    (false, 0x80, "H-"); (false, 0x01, "R-"); (true, 0x08, "A-");
    (true, 0x10, "O-"); (false, 0x100, "*1"); (true, 0x200, "*2");
    (true, 0x20, "#1"); (true, 0x40, "-E"); (true, 0x80, "-U");
    (true, 0x8000, "-F"); (true, 0x01, "-R"); (true, 0x4000, "-P");
    (true, 0x02, "-B"); (true, 0x2000, "-L"); (true, 0x04, "-G");
    (true, 0x1000, "-T"); (true, 0x800, "-S"); (true, 0x100, "-D");
    (true, 0x400, "-Z") ].

Definition tested (a b : Z) (row : bool * Z * string) : Z :=
  Z.land (if row.1.1 then b else a) row.1.2.

(** The wiring that [_read_raw_keys] and [_send] fix together: the pin that
    feeds each bit of [a], with the name decoded from that bit. *)
Definition pin_names : list (Z * string) :=
  [ (16, "R-"); (20, "W-"); (21, "K-"); (1, "S2-"); (26, "S1-"); (19, "T-");
    (13, "P-"); (6, "H-"); (0, "*1") ].

(** Likewise for [_read_ab]: the expander register, the bit in it, and the
    name decoded from that bit of [b]. *)
Definition register_names : list (Z * Z * string) :=
  [ (0x12, 0, "-R"); (0x12, 1, "-B"); (0x12, 2, "-G"); (0x12, 3, "A-");
    (0x12, 4, "O-"); (0x12, 5, "#1"); (0x12, 6, "-E"); (0x12, 7, "-U");
    (0x13, 0, "-D"); (0x13, 1, "*2"); (0x13, 2, "-Z"); (0x13, 3, "-S");
    (0x13, 4, "-T"); (0x13, 5, "-L"); (0x13, 6, "-P"); (0x13, 7, "-F") ].

End TinyMod4Machine.

(** ** class TinyMod4Extension *)

(** A Python [str] is a sequence of Unicode code points. *)
Definition pystr := list N.

Definition str (s : string) : pystr :=
  N_of_ascii <$> list_ascii_of_string s.

(** [l.insert(i, x)] for [i >= 0], and [l.pop()], which removes and returns
    the last item and raises [IndexError] on an empty list. *)
Definition py_insert {A} (i : nat) (x : A) (l : list A) : list A :=
  take i l ++ x :: drop i l.

Definition py_pop {A} (l : list A) : option (A * list A) :=
  x ← last l; Some (x, removelast l).

(** [struct.pack] in native mode.  An unsigned field of [size] bytes is laid
    out least significant byte first (the byte order of the ARM and x86
    targets) and raises [struct.error], here [None], when the value does not
    fit. *)
Fixpoint le_bytes (size : nat) (v : Z) : option (list byte) :=
  match size with
  | O => if v =? 0 then Some [] else None
  | S size =>
      b ← Byte.of_N (Z.to_N (v mod 256));
      bs ← le_bytes size (v / 256);
      Some (b :: bs)
  end.

Definition pack_uint (size : nat) (v : Z) : option (list byte) :=
  if 0 <=? v then le_bytes size v else None.

(** The byte of an integer between 0 and 255. *)
Definition byte_of (v : Z) : byte := default Byte.x00 (Byte.of_N (Z.to_N v)).

Module TinyMod4Extension.

Section Platform.

(** The size in bytes of the platform's C [unsigned long], which is what the
    native format character [L] packs, aligned to its own size: 4 on the
    32-bit Raspberry Pi Zero the module is written for, 8 on LP64. *)
Variable long_size : nat.

(** [struct.pack("BBBBL", b0, b1, b2, b3, l)]: four bytes, the padding that
    aligns the long, the long. *)
Definition pack_BBBBL (b0 b1 b2 b3 l : Z) : option (list byte) :=
  x0 ← pack_uint 1 b0;
  x1 ← pack_uint 1 b1;
  x2 ← pack_uint 1 b2;
  x3 ← pack_uint 1 b3;
  xl ← pack_uint long_size l;
  let pad := ((long_size - 4 `mod` long_size) `mod` long_size)%nat in
  Some (x0 ++ x1 ++ x2 ++ x3 ++ replicate pad Byte.x00 ++ xl).

(** [struct.pack("Q", q)]: eight bytes on every platform. *)
Definition pack_Q (q : Z) : option (list byte) := pack_uint 8 q.

Inductive action :=
| act_string (s : pystr)
| act_backspace (b : Z)
| act_keycombo (c : pystr).

(** What the worker does to its surroundings: the HID device is opened,
    written to and closed, and the key combinations are logged. *)
Inductive event :=
| DevOpen (path : string)
| DevWrite (bs : list byte)
| DevClose
| LogInfo (msg : pystr).

Definition NO_MOD : Z := 0x00.
Definition L_CTRL : Z := 0x01.
Definition L_SHIFT : Z := 0x02.
Definition L_ALT : Z := 0x04.
Definition L_META : Z := 0x08.
Definition R_CTRL : Z := 0x10.
Definition R_SHIFT : Z := 0x20.
Definition R_ALT : Z := 0x40.
Definition R_META : Z := 0x80.

(** The dictionary literal of [__init__], entry by entry.  The newline,
    backspace, tab and double quote keys are written by their codes. *)
Definition hid_lut_entries : list (ascii * (Z * Z)) :=
  [ ("a", (NO_MOD, 4)); ("b", (NO_MOD, 5)); ("c", (NO_MOD, 6));
    ("d", (NO_MOD, 7)); ("e", (NO_MOD, 8)); ("f", (NO_MOD, 9));
    ("g", (NO_MOD, 10)); ("h", (NO_MOD, 11)); ("i", (NO_MOD, 12));
    ("j", (NO_MOD, 13)); ("k", (NO_MOD, 14)); ("l", (NO_MOD, 15));
    ("m", (NO_MOD, 16)); ("n", (NO_MOD, 17)); ("o", (NO_MOD, 18));
    ("p", (NO_MOD, 19)); ("q", (NO_MOD, 20)); ("r", (NO_MOD, 21));
    ("s", (NO_MOD, 22)); ("t", (NO_MOD, 23)); ("u", (NO_MOD, 24));
    ("v", (NO_MOD, 25)); ("w", (NO_MOD, 26)); ("x", (NO_MOD, 27));
    ("y", (NO_MOD, 28)); ("z", (NO_MOD, 29)); ("A", (L_SHIFT, 4));
    ("B", (L_SHIFT, 5)); ("C", (L_SHIFT, 6)); ("D", (L_SHIFT, 7));
    ("E", (L_SHIFT, 8)); ("F", (L_SHIFT, 9)); ("G", (L_SHIFT, 10));
    ("H", (L_SHIFT, 11)); ("I", (L_SHIFT, 12)); ("J", (L_SHIFT, 13));
    ("K", (L_SHIFT, 14)); ("L", (L_SHIFT, 15)); ("M", (L_SHIFT, 16));
    ("N", (L_SHIFT, 17)); ("O", (L_SHIFT, 18)); ("P", (L_SHIFT, 19));
    ("Q", (L_SHIFT, 20)); ("R", (L_SHIFT, 21)); ("S", (L_SHIFT, 22));
    ("T", (L_SHIFT, 23)); ("U", (L_SHIFT, 24)); ("V", (L_SHIFT, 25));
    ("W", (L_SHIFT, 26)); ("X", (L_SHIFT, 27)); ("Y", (L_SHIFT, 28));
    ("Z", (L_SHIFT, 29)); ("1", (NO_MOD, 30)); ("2", (NO_MOD, 31));
    ("3", (NO_MOD, 32)); ("4", (NO_MOD, 33)); ("5", (NO_MOD, 34));
    ("6", (NO_MOD, 35)); ("7", (NO_MOD, 36)); ("8", (NO_MOD, 37));
    ("9", (NO_MOD, 38)); ("0", (NO_MOD, 39)); ("!", (NO_MOD, 30));
    ("@", (L_SHIFT, 31)); ("#", (L_SHIFT, 32)); ("$", (L_SHIFT, 33));
    ("%", (L_SHIFT, 34)); ("^", (L_SHIFT, 35)); ("&", (L_SHIFT, 36));
    ("*", (L_SHIFT, 37)); ("(", (L_SHIFT, 38)); (")", (L_SHIFT, 39));
    ("010", (NO_MOD, 40)); ("008", (NO_MOD, 42)); ("009", (NO_MOD, 43));
    (" ", (NO_MOD, 44)); ("-", (NO_MOD, 45)); ("_", (L_SHIFT, 45));
    ("=", (NO_MOD, 46)); ("+", (L_SHIFT, 46)); ("[", (NO_MOD, 47));
    ("{", (L_SHIFT, 47)); ("]", (NO_MOD, 48)); ("}", (L_SHIFT, 48));
    ("\", (NO_MOD, 49)); ("|", (L_SHIFT, 49)); (";", (NO_MOD, 51));
    (":", (L_SHIFT, 51)); ("'", (NO_MOD, 52)); ("034", (L_SHIFT, 52));
    ("`", (NO_MOD, 53)); ("~", (L_SHIFT, 53)); (",", (NO_MOD, 54));
    ("<", (L_SHIFT, 54)); (".", (NO_MOD, 55)); (">", (L_SHIFT, 55));
    ("/", (NO_MOD, 56)); ("?", (L_SHIFT, 56)) ]%char.

(** [self._hid_lut[char]]: [None] is the [KeyError]. *)
Definition hid_lut (char : N) : option (Z * Z) :=
  snd <$> find (fun e => N_of_ascii e.1 =? char)%N hid_lut_entries.

Record t := mk {
  _buffer : list action;
  out : list event
}.

Definition init : t := mk [] [].

Definition emit (e : event) (w : t) : t := mk (_buffer w) (out w ++ [e]).

Definition f_write (bs : list byte) : t -> t := emit (DevWrite bs).

(** The body of [for char in list(action["string"])]: the [try] block, and
    the [except] block when the look-up or a [pack] raises. *)
Definition write_fallback (w : t) : option t :=
  r ← pack_BBBBL NO_MOD 0x00 56 0x00 0x00000000;
  let w := f_write r w in
  z ← pack_Q 0;
  Some (f_write z w).

Definition write_char (char : N) (w : t) : option t :=
  match hid_lut char with
  | None => write_fallback w
  | Some (mod_, key) =>
      match pack_BBBBL mod_ 0x00 key 0x00 0x00000000 with
      | None => write_fallback w
      | Some r =>
          let w := f_write r w in
          match pack_Q 0 with
          | None => write_fallback w
          | Some z => Some (f_write z w)
          end
      end
  end.

Fixpoint write_chars (s : pystr) (w : t) : option t :=
  match s with
  | [] => Some w
  | char :: s => w ← write_char char w; write_chars s w
  end.

(** The body of [for b in range(action["backspace"])]. *)
Definition write_backspace (w : t) : option t :=
  r ← pack_BBBBL NO_MOD 0x00 42 0x00 0x00000000;
  let w := f_write r w in
  z ← pack_Q 0;
  Some (f_write z w).

Fixpoint write_backspaces (n : nat) (w : t) : option t :=
  match n with
  | O => Some w
  | S n => w ← write_backspace w; write_backspaces n w
  end.

(** The [if]/[elif] chain on [action["type"]]. *)
Definition handle (a : action) (w : t) : option t :=
  match a with
  | act_string s =>
      let w := emit (DevOpen "/dev/hidg0") w in
      w ← write_chars s w;
      Some (emit DevClose w)
  | act_backspace b =>
      let w := emit (DevOpen "/dev/hidg0") w in
      w ← write_backspaces (Z.to_nat b) w;
      Some (emit DevClose w)
  | act_keycombo c =>
      Some (emit (LogInfo (str "send_keycombo: " ++ c)) w)
  end.

(** The inner loop of [run]: [while len(self._buffer) > 0]. *)
Definition drain (fuel : nat) (w : t) : option t :=
  while fuel (fun w => 0 <? Z.of_nat (length (_buffer w)))
    (fun w =>
       '(action, buffer) ← py_pop (_buffer w);
       handle action (mk buffer (out w)))
    w.

(** The three hooks.  [_notify] wakes the worker and changes nothing here. *)
Definition _notify (w : t) : t := w.

Definition _send_string (s : pystr) (w : t) : t :=
  _notify (mk (py_insert 0 (act_string s) (_buffer w)) (out w)).

Definition _send_backspaces (b : Z) (w : t) : t :=
  _notify (mk (py_insert 0 (act_backspace b) (_buffer w)) (out w)).

Definition _send_key_combination (c : pystr) (w : t) : t :=
  _notify (mk (py_insert 0 (act_keycombo c) (_buffer w)) (out w)).

(** The hook that enqueues an action. *)
Definition enqueue (a : action) : t -> t :=
  match a with
  | act_string s => _send_string s
  | act_backspace b => _send_backspaces b
  | act_keycombo c => _send_key_combination c
  end.

(** *** Vocabulary for the statements about the worker *)

(** The hooks called one after the other, first to last. *)
Definition enqueue_all (acts : list action) (w : t) : t :=
  foldl (fun w a => enqueue a w) w acts.

(** The actions handled one after the other, first to last. *)
Fixpoint handle_all (acts : list action) (w : t) : option t :=
  match acts with
  | [] => Some w
  | a :: acts => w ← handle a w; handle_all acts w
  end.

(** The record that [pack_BBBBL] lays out for a modifier and a key code
    that fit a byte, and the trailer. *)
Definition record_of (mod_ key : Z) : list byte :=
  [byte_of mod_; Byte.x00; byte_of key; Byte.x00] ++
  replicate ((long_size - 4 `mod` long_size) `mod` long_size + long_size)%nat
            Byte.x00.

Definition trailer : list byte := replicate 8 Byte.x00.

(** The modifier and key code sent for a character: its table entry, or the
    fallback [(NO_MOD, 56)]. *)
Definition char_code (char : N) : Z * Z := default (NO_MOD, 56) (hid_lut char).

Definition char_records (char : N) : list event :=
  [DevWrite (record_of (char_code char).1 (char_code char).2);
   DevWrite trailer].

Definition backspace_records : list event :=
  [DevWrite (record_of NO_MOD 42); DevWrite trailer].

(** What handling one action does to the device and the log. *)
Definition events_of (a : action) : list event :=
  match a with
  | act_string s =>
      DevOpen "/dev/hidg0" :: concat (char_records <$> s) ++ [DevClose]
  | act_backspace b =>
      DevOpen "/dev/hidg0" ::
        concat (replicate (Z.to_nat b) backspace_records) ++ [DevClose]
  | act_keycombo c => [LogInfo (str "send_keycombo: " ++ c)]
  end.

(** The byte strings written to the device, in order. *)
Definition written (evs : list event) : list (list byte) :=
  omap (fun e => match e with DevWrite bs => Some bs | _ => None end) evs.

(** The number of report and trailer pairs an action asks for: one for each
    character, one for each backspace, none for a key combination. *)
Definition units (a : action) : nat :=
  match a with
  | act_string s => length s
  | act_backspace b => Z.to_nat b
  | act_keycombo _ => 0
  end.

End Platform.

End TinyMod4Extension.

(** * Properties *)

(** ** The circular stack *)

Section ForthStackFacts.
Import ForthStack.

Lemma py_index_Some {A} (l : list A) (i : Z) :
  0 <= i < Z.of_nat (length l) -> py_index l i = Some (Z.to_nat i).
Proof. intros H. unfold py_index. by rewrite decide_True. Qed.

Lemma py_getitem_is_Some {A} (l : list A) (i : Z) :
  0 <= i < Z.of_nat (length l) -> is_Some (py_getitem l i).
Proof.
  intros H. unfold py_getitem. rewrite py_index_Some by done. simpl.
  apply lookup_lt_is_Some. lia.
Qed.

Lemma py_setitem_Some {A} (l : list A) (i : Z) (x : A) :
  0 <= i < Z.of_nat (length l) ->
  py_setitem l i x = Some (<[Z.to_nat i:=x]> l).
Proof. intros H. unfold py_setitem. by rewrite py_index_Some. Qed.

Lemma land_mask_mod (x : Z) (k : nat) :
  Z.land x (2 ^ Z.of_nat k - 1) = x mod 2 ^ Z.of_nat k.
Proof.
  replace (2 ^ Z.of_nat k - 1) with (Z.ones (Z.of_nat k))
    by (rewrite Z.ones_equiv; lia).
  apply Z.land_ones. lia.
Qed.

Lemma land_mask_range (x : Z) (k : nat) :
  0 <= Z.land x (2 ^ Z.of_nat k - 1) <= 2 ^ Z.of_nat k - 1.
Proof.
  rewrite land_mask_mod.
  pose proof (Z.mod_pos_bound x (2 ^ Z.of_nat k)). lia.
Qed.

Lemma wf_index_p (k : nat) (s : t) :
  wf k s -> 0 <= _p s < Z.of_nat (length (_stack s)).
Proof. intros (_ & _ & Hl & Hp). lia. Qed.

Lemma push_wf (k : nat) (n : Z) (s : t) :
  wf k s ->
  exists s', push n s = Some s' /\ wf k s' /\
    _p s' = (_p s + 1) mod 2 ^ Z.of_nat k.
Proof.
  intros (Hk & Hm & Hl & Hp).
  pose proof (land_mask_range (_p s + 1) k) as Hr.
  unfold push. rewrite Hm, py_setitem_Some by lia. simpl.
  eexists. split; [reflexivity|]. split; [|apply land_mask_mod].
  repeat split; simpl; auto; try lia. rewrite length_insert. lia.
Qed.

Lemma pop_wf (k : nat) (s : t) :
  wf k s ->
  exists n s', pop s = Some (n, s') /\ wf k s' /\
    _p s' = (_p s - 1) mod 2 ^ Z.of_nat k.
Proof.
  intros Hwf.
  destruct (py_getitem_is_Some _ _ (wf_index_p k s Hwf)) as [n Hn].
  destruct Hwf as (Hk & Hm & Hl & Hp).
  pose proof (land_mask_range (_p s - 1) k) as Hr.
  unfold pop. rewrite Hn, Hm. simpl.
  eexists _, _. split; [reflexivity|]. split; [|apply land_mask_mod].
  repeat split; simpl; auto; lia.
Qed.

(** Reading the top of stack and writing it back, as the in-place words do. *)
Lemma poke_wf (k : nat) (f : Z -> Z) (s : t) :
  wf k s ->
  exists x stack,
    py_getitem (_stack s) (_p s) = Some x /\
    py_setitem (_stack s) (_p s) (f x) = Some stack /\
    wf k (mk (_stackSize s) (_stackMask s) stack (_p s)).
Proof.
  intros Hwf. pose proof (wf_index_p k s Hwf) as Hi.
  destruct (py_getitem_is_Some (_stack s) (_p s) Hi) as [x Hx].
  destruct Hwf as (Hk & Hm & Hl & Hp).
  exists x, (<[Z.to_nat (_p s):=f x]> (_stack s)).
  split; [done|]. split; [by apply py_setitem_Some|].
  repeat split; simpl; auto; try lia. rewrite length_insert. lia.
Qed.

Ltac step_push n H :=
  let s := fresh "s" in let E := fresh "E" in let W := fresh "W" in
  destruct (push_wf _ n _ H) as (s & E & W & _); rewrite E; simpl.

Ltac step_pop H :=
  let n := fresh "n" in
  let s := fresh "s" in let E := fresh "E" in let W := fresh "W" in
  destruct (pop_wf _ _ H) as (n & s & E & W & _); rewrite E; simpl.

Lemma drop_wf (k : nat) (s : t) :
  wf k s -> exists s', drop s = Some s' /\ wf k s'.
Proof. intros H. unfold drop. step_pop H. eauto. Qed.

Lemma times_wf (k n : nat) (f : t -> option t) :
  (forall s, wf k s -> exists s', f s = Some s' /\ wf k s') ->
  forall s, wf k s -> exists s', times n f s = Some s' /\ wf k s'.
Proof.
  intros Hf. induction n as [|n IH]; intros s H; simpl; [eauto|].
  destruct (Hf s H) as (s1 & -> & H1). simpl. auto.
Qed.

Lemma binop_wf (k : nat) (f : Z -> Z -> Z) (s : t) :
  wf k s -> exists s', binop f s = Some s' /\ wf k s'.
Proof.
  intros H. unfold binop. step_pop H.
  destruct (poke_wf k (f n) _ W) as (x & stack & Hx & Hstack & W').
  rewrite Hx. simpl. rewrite Hstack. simpl. eauto.
Qed.

Lemma unop_wf (k : nat) (f : Z -> Z) (s : t) :
  wf k s -> exists s', unop f s = Some s' /\ wf k s'.
Proof.
  intros H. unfold unop.
  destruct (poke_wf k f _ H) as (x & stack & Hx & Hstack & W').
  rewrite Hx. simpl. rewrite Hstack. simpl. eauto.
Qed.

Lemma exec_wf (k : nat) (w : word) (s : t) :
  wf k s -> exists s', exec w s = Some s' /\ wf k s'.
Proof.
  intros H. destruct w; simpl.
  - step_push n H. eauto.
  - step_pop H. eauto.
  - by apply drop_wf.
  - unfold dup.
    destruct (py_getitem_is_Some _ _ (wf_index_p k s H)) as [x ->]. simpl.
    step_push x H. eauto.
  - unfold swap. step_pop H. step_pop W. step_push n W0. step_push n0 W1.
    eauto.
  - unfold over. step_pop H. step_pop W. step_push n0 W0. step_push n W1.
    step_push n0 W2. eauto.
  - unfold back. by apply times_wf; [apply drop_wf|].
  - by apply binop_wf.
  - by apply binop_wf.
  - by apply binop_wf.
  - by apply binop_wf.
  - by apply unop_wf.
  - by apply unop_wf.
Qed.

Lemma run_wf (k : nat) (ws : list word) (s : t) :
  wf k s -> exists s', run ws s = Some s' /\ wf k s'.
Proof.
  revert s. induction ws as [|w ws IH]; intros s H; simpl; [eauto|].
  destruct (exec_wf k w s H) as (s1 & -> & H1). simpl. auto.
Qed.

Lemma init_wf (k : nat) : wf k (init (2 ^ Z.of_nat k) (2 ^ Z.of_nat k - 1)).
Proof.
  pose proof (Z.pow_pos_nonneg 2 (Z.of_nat k)).
  repeat split; simpl; auto; try lia.
  rewrite length_replicate. lia.
Qed.

(** C9.  A stack built with a power of two as its size and that size less
    one as its mask runs every sequence of its words to the end: no index
    leaves the list, so nothing raises, and the state reached keeps the
    pointer between 0 and the size less one.  From any state so reached a
    push moves the pointer up by one and a pop down by one, modulo the
    size. *)
Theorem forth_stack_never_faults (k : nat) (ws : list word) (n : Z) :
  let size := 2 ^ Z.of_nat k in
  exists s s1 x s2,
    run ws (init size (size - 1)) = Some s /\
    Z.of_nat (length (_stack s)) = size /\
    0 <= _p s <= size - 1 /\
    push n s = Some s1 /\ _p s1 = (_p s + 1) mod size /\
    pop s = Some (x, s2) /\ _p s2 = (_p s - 1) mod size.
Proof.
  intros size.
  destruct (run_wf k ws _ (init_wf k)) as (s & Hrun & Hwf).
  destruct (push_wf k n s Hwf) as (s1 & Hpush & _ & Hp1).
  destruct (pop_wf k s Hwf) as (x & s2 & Hpop & _ & Hp2).
  exists s, s1, x, s2. destruct Hwf as (_ & _ & Hl & Hp). done.
Qed.

End ForthStackFacts.

(** ** Reading the board *)

Section ReadFacts.
Import TinyMod4Machine.

Lemma wf3_cases (s : ForthStack.t) :
  ForthStack.wf 3 s ->
  exists x0 x1 x2 x3 x4 x5 x6 x7 p,
    s = ForthStack.mk 8 7 [x0; x1; x2; x3; x4; x5; x6; x7] p /\
    (p = 0 \/ p = 1 \/ p = 2 \/ p = 3 \/ p = 4 \/ p = 5 \/ p = 6 \/ p = 7).
Proof.
  destruct s as [size mask l p]. intros (Hk & Hm & Hl & Hp). simpl in *.
  change (2 ^ Z.of_nat 3) with 8 in *. subst size mask.
  do 8 (destruct l as [|? l]; [simpl in Hl; lia|]).
  destruct l; [|simpl in Hl; lia].
  eexists _, _, _, _, _, _, _, _, p. split; [reflexivity|]. lia.
Qed.

Ltac wf3_split H :=
  let Hp := fresh "Hp" in
  destruct (wf3_cases _ H) as (?&?&?&?&?&?&?&?&?&->&Hp);
  destruct Hp as [->|[->|[->|[->|[->|[->|[->| ->]]]]]]].

Ltac wf3_run :=
  repeat (split; [cbv -[Z.lor]; reflexivity|]);
  try (split; cbv -[Z.le Z.lt]; lia); cbv -[Z.le Z.lt]; lia.

(** The stack words of [_read_all], and the two pops that follow in [_scan]. *)
Lemma read_sequence (a b : Z) (s : ForthStack.t) :
  ForthStack.wf 3 s ->
  exists s1 s2 s3 s4 s5 s6 s7 s8,
    ForthStack.push a s = Some s1 /\ ForthStack.push b s1 = Some s2 /\
    ForthStack.over s2 = Some s3 /\ ForthStack.over s3 = Some s4 /\
    ForthStack.or_ s4 = Some s5 /\
    ForthStack.pop s5 = Some (Z.lor b a, s6) /\
    ForthStack.pop s6 = Some (b, s7) /\ ForthStack.pop s7 = Some (a, s8) /\
    ForthStack.wf 3 s6 /\ ForthStack.wf 3 s8.
Proof.
  intros H. wf3_split H; (eexists _, _, _, _, _, _, _, _; wf3_run).
Qed.

(** The two pushes that end [_scan], and the two pops that begin [_send]. *)
Lemma push_push_pop_pop (a b : Z) (s : ForthStack.t) :
  ForthStack.wf 3 s ->
  exists s1 s2 s3 s4,
    ForthStack.push a s = Some s1 /\ ForthStack.push b s1 = Some s2 /\
    ForthStack.pop s2 = Some (b, s3) /\ ForthStack.pop s3 = Some (a, s4) /\
    ForthStack.wf 3 s2.
Proof.
  intros H. wf3_split H; (eexists _, _, _, _; wf3_run).
Qed.

Lemma read_all_merged_spec (h : hw) (m : t) :
  stack_ok m ->
  exists st st1 st2,
    read_all_merged h m =
      Some (Z.lor (mask_b h) (mask_a h), set_stack st (set_pressed true m)) /\
    ForthStack.pop st = Some (mask_b h, st1) /\
    ForthStack.pop st1 = Some (mask_a h, st2) /\
    ForthStack.wf 3 st /\ ForthStack.wf 3 st2.
Proof.
  intros H.
  destruct (read_sequence (mask_a h) (mask_b h) _ H)
    as (s1&s2&s3&s4&s5&s6&s7&s8&E1&E2&E3&E4&E5&E6&E7&E8&W6&W8).
  exists s6, s7, s8. split_and!; try done.
  unfold read_all_merged, _read_raw_keys, _read_ab. cbv zeta.
  change (Z.lxor (raw_bits h) 0x01ff) with (mask_a h).
  change (Z.lxor (expander_word h) 0xffff) with (mask_b h).
  simpl. rewrite E1. simpl. rewrite E2. simpl. rewrite E3. simpl.
  rewrite E4. simpl. rewrite E5. simpl. rewrite E6. reflexivity.
Qed.

Lemma read_all_spec (h : hw) (m : t) :
  stack_ok m ->
  exists st st1 st2,
    _read_all h m = Some (set_stack st (set_pressed (keys_down h) m)) /\
    ForthStack.pop st = Some (mask_b h, st1) /\
    ForthStack.pop st1 = Some (mask_a h, st2) /\
    ForthStack.wf 3 st /\ ForthStack.wf 3 st2.
Proof.
  intros H.
  destruct (read_all_merged_spec h m H) as (st&st1&st2&E&P1&P2&W&W2).
  exists st, st1, st2. split_and!; try done.
  unfold _read_all. rewrite E. simpl. unfold keys_down.
  by destruct (Z.lor (mask_b h) (mask_a h) =? 0).
Qed.

End ReadFacts.

Section ReadClaims.
Import TinyMod4Machine.

Lemma init_stack_ok (km : Keymap) : stack_ok (init km).
Proof. unfold stack_ok. cbv -[Z.le Z.lt]. lia. Qed.

(** C4.  Whatever the nine pins and the two expander registers read, the
    value that [_read_all] computes with push, push, over, over, or_ and pop
    is the bitwise OR of the two inverted sub-masks,
    [(rawBits ^ 0x1ff) | (expanderWord ^ 0xffff)]. *)
Theorem read_all_merges_by_or (h : hw) (m : t) :
  stack_ok m ->
  exists m',
    read_all_merged h m =
      Some (merged_mask_spec (raw_bits h) (expander_word h), m').
Proof.
  intros H. destruct (read_all_merged_spec h m H) as (st & _ & _ & E & _).
  eexists. rewrite E. unfold merged_mask_spec, mask_a, mask_b.
  by rewrite Z.lor_comm.
Qed.

Lemma read_all_merges_by_or_witness :
  stack_ok (init identity_keymap) /\
  exists m',
    read_all_merged (board 1 0x1ef 0xfffe) (init identity_keymap) =
      Some (merged_mask_spec (raw_bits (board 1 0x1ef 0xfffe))
                             (expander_word (board 1 0x1ef 0xfffe)), m').
Proof.
  assert (stack_ok (init identity_keymap)) as H
    by (repeat split; try reflexivity; simpl; lia).
  split; [exact H|].
  exact (read_all_merges_by_or (board 1 0x1ef 0xfffe) (init identity_keymap) H).
Defined.

(** C10.  After [_read_all] the flag [_pressed] is true exactly when the OR
    of the two inverted sub-masks just read is not zero, and the two top
    stack entries are the inverted expander mask and, below it, the
    inverted pin mask: the values that the accumulating loop of [_scan]
    then pops into [b] and into [a]. *)
Theorem read_all_sets_pressed_and_stack (h : hw) (hs : list hw) (m : t)
    (a b : Z) :
  stack_ok m ->
  exists m' st1 st2,
    _read_all h m = Some m' /\
    (_pressed m' = true <-> Z.lor (mask_a h) (mask_b h) <> 0) /\
    ForthStack.pop (_stack m') = Some (mask_b h, st1) /\
    ForthStack.pop st1 = Some (mask_a h, st2) /\
    scan_accumulate (m, h :: hs, a, b) =
      Some (set_stack st2 m', hs, Z.lor a (mask_a h), Z.lor b (mask_b h)).
Proof.
  intros H. destruct (read_all_spec h m H) as (st & st1 & st2 & E & P1 & P2 & _).
  eexists _, st1, st2. split; [exact E|]. split_and!; try done.
  - simpl. unfold keys_down. rewrite (Z.lor_comm (mask_a h)).
    destruct (Z.eqb_spec (Z.lor (mask_b h) (mask_a h)) 0); simpl; split; congruence.
  - unfold scan_accumulate, read_next. simpl. rewrite E. simpl.
    rewrite P1. simpl. rewrite P2. reflexivity.
Qed.

Lemma read_all_sets_pressed_and_stack_witness :
  stack_ok (init identity_keymap) /\
  exists m' st1 st2,
    _read_all (board 1 0x1ef 0xfffe) (init identity_keymap) = Some m' /\
    (_pressed m' = true <->
       Z.lor (mask_a (board 1 0x1ef 0xfffe)) (mask_b (board 1 0x1ef 0xfffe))
         <> 0) /\
    ForthStack.pop (_stack m') = Some (mask_b (board 1 0x1ef 0xfffe), st1) /\
    ForthStack.pop st1 = Some (mask_a (board 1 0x1ef 0xfffe), st2) /\
    scan_accumulate (init identity_keymap, [board 1 0x1ef 0xfffe], 0, 0) =
      Some (set_stack st2 m', [],
            Z.lor 0 (mask_a (board 1 0x1ef 0xfffe)),
            Z.lor 0 (mask_b (board 1 0x1ef 0xfffe))).
Proof.
  assert (stack_ok (init identity_keymap)) as H
    by (repeat split; try reflexivity; simpl; lia).
  split; [exact H|].
  exact (read_all_sets_pressed_and_stack (board 1 0x1ef 0xfffe) []
           (init identity_keymap) 0 0 H).
Defined.

End ReadClaims.

(** ** Scanning a chord *)

Section ScanFacts.
Import TinyMod4Machine.

Lemma read_next_spec (h : hw) (hs : list hw) (m : t) :
  stack_ok m ->
  exists m',
    read_next (m, h :: hs) = Some (m', hs) /\
    stack_ok m' /\ _pressed m' = keys_down h.
Proof.
  intros H. destruct (read_all_spec h m H) as (st & _ & _ & E & _ & _ & W & _).
  eexists. unfold read_next. simpl. rewrite E. simpl. done.
Qed.

Lemma scan_accumulate_spec (h : hw) (hs : list hw) (m : t) (a b : Z) :
  stack_ok m ->
  exists m',
    scan_accumulate (m, h :: hs, a, b) =
      Some (m', hs, Z.lor a (mask_a h), Z.lor b (mask_b h)) /\
    stack_ok m' /\ _pressed m' = keys_down h.
Proof.
  intros H.
  destruct (read_all_spec h m H) as (st & st1 & st2 & E & P1 & P2 & _ & W).
  eexists. unfold scan_accumulate, read_next. simpl. rewrite E. simpl.
  rewrite P1. simpl. rewrite P2. simpl. done.
Qed.

Lemma released_masks (h : hw) :
  keys_down h = false -> mask_a h = 0 /\ mask_b h = 0.
Proof.
  unfold keys_down. intros H. apply negb_false_iff, Z.eqb_eq in H.
  apply Z.lor_eq_0_iff in H. tauto.
Qed.

(** The inner waiting loop. *)
Lemma wait_loop (idle : list hw) (d : hw) (rest : list hw) :
  Forall (fun h => keys_down h = false) idle ->
  keys_down d = true ->
  forall (fuel : nat) (m : t),
    stack_ok m -> _pressed m = false -> (length idle < fuel)%nat ->
    exists m',
      while fuel (fun s => negb (_pressed s.1)) read_next
        (m, idle ++ d :: rest) = Some (m', rest) /\
      stack_ok m' /\ _pressed m' = true.
Proof.
  intros Hidle Hd. induction Hidle as [|h idle Hh _ IH];
    intros [|fuel] m Hm Hp Hf; simpl in Hf; try lia.
  - destruct (read_next_spec d rest m Hm) as (m1 & E & W & P).
    exists m1. simpl. rewrite Hp. simpl. rewrite E. simpl.
    rewrite Hd in P. destruct fuel; simpl; rewrite P; done.
  - destruct (read_next_spec h (idle ++ d :: rest) m Hm) as (m1 & E & W & P).
    simpl. rewrite Hp. simpl. rewrite E. simpl.
    apply IH; [done|congruence|lia].
Qed.

Lemma settle_spec (idle : list hw) (d c : hw) (rest : list hw) (fuel : nat)
    (m : t) :
  Forall (fun h => keys_down h = false) idle ->
  keys_down d = true ->
  stack_ok m -> _pressed m = false -> (length idle < fuel)%nat ->
  exists m',
    scan_settle fuel (m, idle ++ d :: c :: rest) = Some (m', rest) /\
    stack_ok m' /\ _pressed m' = keys_down c.
Proof.
  intros Hidle Hd Hm Hp Hf.
  destruct (wait_loop idle d (c :: rest) Hidle Hd fuel m Hm Hp Hf)
    as (m1 & E & W & P).
  unfold scan_settle. rewrite E. simpl.
  apply (read_next_spec c rest (emit (Sleep 30) m1)). exact W.
Qed.

(** The outer waiting loop, over all its rounds. *)
Lemma waiting_spec (pre : list hw) :
  waits pre ->
  forall (rest : list hw) (fo fi : nat) (m : t),
    stack_ok m -> _pressed m = false ->
    (length pre < fo)%nat -> (length pre < fi)%nat ->
    exists m',
      while fo (fun s => negb (_pressed s.1)) (scan_settle fi)
        (m, pre ++ rest) = Some (m', rest) /\
      stack_ok m' /\ _pressed m' = true.
Proof.
  induction 1 as [idle d c Hidle Hd Hc|idle d c hs Hidle Hd Hc _ IH];
    intros rest [|fo] fi m Hm Hp Hfo Hfi;
    rewrite ?length_app in Hfo, Hfi; simpl in Hfo, Hfi; try lia.
  - rewrite <- app_assoc. simpl.
    destruct (settle_spec idle d c rest fi m Hidle Hd Hm Hp) as (m1 & E & W & P);
      [lia|].
    exists m1. rewrite Hp. simpl. rewrite E. simpl.
    rewrite Hc in P. destruct fo; simpl; rewrite P; done.
  - rewrite <- app_assoc. simpl.
    destruct (settle_spec idle d c (hs ++ rest) fi m Hidle Hd Hm Hp)
      as (m1 & E & W & P); [lia|].
    rewrite Hp. simpl. rewrite E. simpl.
    apply IH; [done|congruence|lia|lia].
Qed.

(** The accumulating loop. *)
Lemma accumulate_loop (acc : list hw) (z : hw) (rest : list hw) :
  Forall (fun h => keys_down h = true) acc ->
  keys_down z = false ->
  forall (fuel : nat) (m : t) (a b : Z),
    stack_ok m -> _pressed m = true -> (length acc < fuel)%nat ->
    exists m',
      while fuel (fun '(s, a, b) => _pressed s.1) scan_accumulate
        (m, acc ++ z :: rest, a, b) =
        Some (m', rest, (foldl union_step (a, b) acc).1,
                        (foldl union_step (a, b) acc).2) /\
      stack_ok m' /\ _pressed m' = false.
Proof.
  intros Hacc Hz. induction Hacc as [|h acc Hh _ IH];
    intros [|fuel] m a b Hm Hp Hf; simpl in Hf; try lia.
  - destruct (scan_accumulate_spec z rest m a b Hm) as (m1 & E & W & P).
    destruct (released_masks z Hz) as [Ha Hb].
    rewrite Ha, Hb, !Z.lor_0_r in E.
    exists m1. cbn [while app fst snd]. rewrite Hp, E. cbn [mbind option_bind].
    rewrite Hz in P. destruct fuel; cbn [while fst snd]; rewrite P; done.
  - destruct (scan_accumulate_spec h (acc ++ z :: rest) m a b Hm)
      as (m1 & E & W & P).
    cbn [while app fst snd]. rewrite Hp, E.
    cbn [mbind option_bind foldl].
    apply IH; [done|congruence|lia].
Qed.

Lemma scan_spec (pre acc : list hw) (z : hw) (rest : list hw) (fuel : nat)
    (m : t) :
  waits pre ->
  Forall (fun h => keys_down h = true) acc ->
  keys_down z = false ->
  stack_ok m -> _pressed m = false ->
  (length pre + length acc < fuel)%nat ->
  exists m',
    _scan fuel m (pre ++ acc ++ z :: rest) = Some (m', rest) /\
    accumulated m' = Some (union_masks acc) /\
    stack_ok m' /\ _pressed m' = false.
Proof.
  intros Hpre Hacc Hz Hm Hp Hf.
  destruct (waiting_spec pre Hpre (acc ++ z :: rest) fuel fuel m Hm Hp)
    as (m1 & E1 & W1 & P1); [lia|lia|].
  destruct (accumulate_loop acc z rest Hacc Hz fuel m1 0 0 W1 P1)
    as (m2 & E2 & W2 & P2); [lia|].
  destruct (push_push_pop_pop (union_masks acc).1 (union_masks acc).2 _ W2)
    as (s1 & s2 & s3 & s4 & Q1 & Q2 & Q3 & Q4 & W).
  exists (set_stack s2 m2). unfold _scan, push_masks. rewrite E1. simpl.
  rewrite E2. simpl. fold (union_masks acc). rewrite Q1. simpl.
  rewrite Q2. simpl. split; [done|]. split; [|done].
  unfold accumulated. simpl. rewrite Q3. simpl. rewrite Q4. simpl.
  by destruct (union_masks acc).
Qed.

End ScanFacts.

Section ScanClaims.
Import TinyMod4Machine.

Lemma carries_keys_down (a b : Z) (h : hw) :
  carries a b h -> Z.lor a b <> 0 -> keys_down h = true.
Proof.
  intros [<- <-] H. unfold keys_down. rewrite Z.lor_comm.
  apply negb_true_iff, Z.eqb_neq. done.
Qed.

Lemma union_same (a b : Z) (hs : list hw) :
  Forall (carries a b) hs -> hs <> [] ->
  forall a0 b0, foldl union_step (a0, b0) hs = (Z.lor a0 a, Z.lor b0 b).
Proof.
  induction 1 as [|h hs [Ha Hb] Hhs IH]; [done|]. intros _ a0 b0.
  cbn [foldl]. unfold union_step at 2. cbn [fst snd]. rewrite Ha, Hb.
  destruct hs as [|h' hs]; [done|].
  rewrite IH by done. by rewrite <- !Z.lor_assoc, !Z.lor_diag.
Qed.

Lemma union_early_late (xa xb ya yb : Z) (early late : list hw) :
  Forall (carries xa xb) early ->
  Forall (carries (Z.lor xa ya) (Z.lor xb yb)) late ->
  late <> [] ->
  union_masks (early ++ late) = (Z.lor xa ya, Z.lor xb yb).
Proof.
  intros He Hl Hne. unfold union_masks. rewrite foldl_app.
  destruct early as [|h early].
  - cbn [foldl]. by rewrite (union_same _ _ late Hl Hne).
  - rewrite (union_same _ _ (h :: early) He) by done.
    rewrite (union_same _ _ late Hl Hne). cbn [Z.lor].
    by rewrite !Z.lor_assoc, !Z.lor_diag.
Qed.

(** C6, as the code has it.  The polls that detect the chord and the poll
    after the settle delay are not accumulated; the accumulating loop starts
    with the poll after them.  When the polls of that loop show the keys
    [X], in any number, and then the keys [X | Y], at least once, before a
    poll that shows no key, the pair that [_scan] leaves is [X | Y],
    whatever the numbers of polls. *)
Theorem scan_accumulates_union (pre early late : list hw) (z : hw)
    (rest : list hw) (fuel : nat) (m : t) (xa xb ya yb : Z) :
  stack_ok m -> _pressed m = false ->
  waits pre ->
  Forall (carries xa xb) early ->
  Forall (carries (Z.lor xa ya) (Z.lor xb yb)) late ->
  late <> [] ->
  Z.lor xa xb <> 0 ->
  keys_down z = false ->
  (length pre + length early + length late < fuel)%nat ->
  exists m',
    _scan fuel m (pre ++ early ++ late ++ z :: rest) = Some (m', rest) /\
    accumulated m' = Some (Z.lor xa ya, Z.lor xb yb).
Proof.
  intros Hm Hp Hpre He Hl Hne Hx Hz Hf.
  assert (Z.lor (Z.lor xa ya) (Z.lor xb yb) <> 0) as Hxy.
  { intros H. apply Z.lor_eq_0_iff in H as [H1 H2].
    apply Z.lor_eq_0_iff in H1 as [H1 _]. apply Z.lor_eq_0_iff in H2 as [H2 _].
    subst. done. }
  assert (Forall (fun h => keys_down h = true) (early ++ late)) as Hacc.
  { apply Forall_app. split.
    - eapply Forall_impl; [exact He|]. intros h Hh.
      by apply (carries_keys_down xa xb).
    - eapply Forall_impl; [exact Hl|]. intros h Hh.
      by apply (carries_keys_down _ _ h Hh). }
  destruct (scan_spec pre (early ++ late) z rest fuel m Hpre Hacc Hz Hm Hp)
    as (m' & E & A & _); [rewrite length_app; lia|].
  exists m'. rewrite <- app_assoc in E. split; [exact E|].
  rewrite A. f_equal. by apply union_early_late.
Qed.

Lemma scan_accumulates_union_witness :
  let idle := board 0 0x1ff 0xffff in
  let x := board 0 0x1ef 0xffff in
  let xy := board 0 0x1cf 0xfffe in
  exists m',
    _scan 8 (init identity_keymap)
      ([idle; x; x] ++ [x] ++ [xy; xy] ++ idle :: []) = Some (m', []) /\
    accumulated m' = Some (Z.lor 0x10 0x20, Z.lor 0 1).
Proof.
  intros idle x xy.
  apply (scan_accumulates_union [idle; x; x] [x] [xy; xy] idle [] 8
           (init identity_keymap) 0x10 0 0x20 1).
  - repeat split; try reflexivity; simpl; lia.
  - reflexivity.
  - apply (waits_done [idle] x x); [repeat constructor|reflexivity..].
  - repeat constructor.
  - repeat constructor.
  - discriminate.
  - vm_compute. discriminate.
  - reflexivity.
  - simpl. lia.
Defined.

(** C6 as the specification states it fails on a short chord: the first
    poll shows [X], the poll after the settle delay shows [X | Y], and the
    keys are up at the next poll.  The union of the sampled sub-masks is
    [X | Y]; [_scan] leaves [(0, 0)]. *)
Lemma scan_drops_settle_samples :
  let x := board 0 0x1ef 0xffff in
  let xy := board 0 0x1cf 0xffff in
  let z := board 0 0x1ff 0xffff in
  carries 0x10 0 x /\ carries (Z.lor 0x10 0x20) 0 xy /\ keys_down z = false /\
  union_masks [x; xy; z] = (Z.lor 0x10 0x20, 0) /\
  (snd <$> _scan 3 (init identity_keymap) [x; xy; z]) = Some [] /\
  (_scan 3 (init identity_keymap) [x; xy; z] ≫= fun r => accumulated r.1)
    = Some (0, 0) /\
  (0, 0) <> (Z.lor 0x10 0x20, 0).
Proof. vm_compute. repeat split; discriminate. Qed.

End ScanClaims.

(** ** Decoding and sending a chord *)

Section SendFacts.
Import TinyMod4Machine.

Lemma append_if_app (c : Z) (k : string) (l r : list string) :
  append_if c k (l ++ r) = l ++ append_if c k r.
Proof. unfold append_if. destruct (truthy c); by rewrite <- ?app_assoc. Qed.

Lemma append_if_cons (c : Z) (k x : string) (l : list string) :
  append_if c k (x :: l) = x :: append_if c k l.
Proof. unfold append_if. by destruct (truthy c). Qed.

Lemma append_if_true (c : Z) (k : string) (l : list string) :
  c <> 0 -> append_if c k l = l ++ [k].
Proof.
  intros H. unfold append_if, truthy.
  by destruct (Z.eqb_spec c 0).
Qed.

(** Both star keys down: the names come out next to each other, [*1]
    first. *)
Lemma decode_stars (a b : Z) :
  Z.land a 0x100 <> 0 -> Z.land b 0x200 <> 0 ->
  exists l1 l2, decode a b = l1 ++ "*1" :: "*2" :: l2.
Proof.
  intros Ha Hb. unfold decode. cbv zeta.
  rewrite (append_if_true (Z.land a 0x100)) by done.
  rewrite (append_if_true (Z.land b 0x200)) by done.
  rewrite <- app_assoc. cbn [app].
  rewrite !append_if_app, !append_if_cons. eauto.
Qed.

(** [_send] on the pair that [_scan] leaves. *)
Lemma send_spec (a b : Z) (m : t) :
  stack_ok m ->
  exists st,
    stack_ok (set_stack st m) /\
    (push_masks a b m ≫= _send) =
      Some match decode a b with
           | [] => set_stack st m
           | _ :: _ => _on_stroke (decode a b) (set_stack st m)
           end.
Proof.
  intros H.
  destruct (push_push_pop_pop a b _ H)
    as (s1 & s2 & s3 & s4 & Q1 & Q2 & Q3 & Q4 & W).
  destruct (pop_wf 3 s2 W) as (? & ? & Q3' & W3 & _).
  rewrite Q3 in Q3'. injection Q3' as <- <-.
  destruct (pop_wf 3 s3 W3) as (? & ? & Q4' & W4 & _).
  rewrite Q4 in Q4'. injection Q4' as <- <-.
  exists s4. split; [exact W4|].
  unfold push_masks. rewrite Q1. simpl. rewrite Q2. simpl.
  unfold _send. simpl. rewrite Q3. simpl. rewrite Q4. simpl.
  by destruct (decode a b).
Qed.

(** C7.  [_send] follows the table of the source: the masks [A = 0x10],
    [B = 0] give the key set [["S1-"]] to [_on_stroke], and masks with the
    bit [0x100] of [A] and the bit [0x200] of [B] give a key set in which
    [*1] comes, and is followed by [*2]. *)
Theorem send_follows_table (m : t) (a b : Z) :
  stack_ok m -> Z.land a 0x100 <> 0 -> Z.land b 0x200 <> 0 ->
  (exists st,
     (push_masks 0x10 0 m ≫= _send) =
       Some (_on_stroke ["S1-"] (set_stack st m))) /\
  (exists st l1 l2,
     (push_masks a b m ≫= _send) =
       Some (_on_stroke (l1 ++ "*1" :: "*2" :: l2) (set_stack st m))).
Proof.
  intros H Ha Hb. split.
  - destruct (send_spec 0x10 0 m H) as (st & _ & E). by exists st.
  - destruct (send_spec a b m H) as (st & _ & E).
    destruct (decode_stars a b Ha Hb) as (l1 & l2 & D).
    exists st, l1, l2. rewrite E, D. by destruct l1.
Qed.

Lemma send_follows_table_witness :
  (exists st,
     (push_masks 0x10 0 (init identity_keymap) ≫= _send) =
       Some (_on_stroke ["S1-"] (set_stack st (init identity_keymap)))) /\
  (exists st l1 l2,
     (push_masks 0x1ff 0xffff (init identity_keymap) ≫= _send) =
       Some (_on_stroke (l1 ++ "*1" :: "*2" :: l2)
               (set_stack st (init identity_keymap)))).
Proof.
  apply (send_follows_table (init identity_keymap) 0x1ff 0xffff).
  - repeat split; try reflexivity; simpl; lia.
  - vm_compute. discriminate.
  - vm_compute. discriminate.
Defined.

(** C8.  With both masks zero [_send] decodes the empty key set and notifies
    nobody; and when the key map turns a key set into no action,
    [_on_stroke] notifies nobody either, called directly or from [_send].
    In each case the call returns and the log is as it was. *)
Theorem empty_chord_sends_nothing (m : t) (keys : list string) (a b : Z) :
  stack_ok m ->
  keys_to_actions (keymap m) keys = [] ->
  keys_to_actions (keymap m) (decode a b) = [] ->
  decode 0 0 = [] /\
  (exists m', (push_masks 0 0 m ≫= _send) = Some m' /\ log m' = log m) /\
  _on_stroke keys m = m /\
  (exists m', (push_masks a b m ≫= _send) = Some m' /\ log m' = log m).
Proof.
  intros H Hkeys Hab. split_and!.
  - reflexivity.
  - destruct (send_spec 0 0 m H) as (st & _ & E). eexists. by rewrite E.
  - unfold _on_stroke. by rewrite Hkeys.
  - destruct (send_spec a b m H) as (st & _ & E). eexists. rewrite E.
    split; [reflexivity|]. destruct (decode a b) as [|k ks] eqn:D; [done|].
    unfold _on_stroke. simpl. by rewrite Hab.
Qed.

Lemma empty_chord_sends_nothing_witness :
  let m := init {| keys_to_actions := fun _ => [] |} in
  decode 0 0 = [] /\
  (exists m', (push_masks 0 0 m ≫= _send) = Some m' /\ log m' = log m) /\
  _on_stroke ["S1-"; "T-"] m = m /\
  (exists m', (push_masks 0x10 0 m ≫= _send) = Some m' /\ log m' = log m).
Proof.
  intros m.
  apply (empty_chord_sends_nothing m ["S1-"; "T-"] 0x10 0).
  - repeat split; try reflexivity; simpl; lia.
  - reflexivity.
  - reflexivity.
Defined.

End SendFacts.

(** ** Connecting to the board *)

Section ConnectFacts.
Import TinyMod4Machine.

(** C2, as the code has it.  [_connect] returns [True] exactly when the
    set-up raises nothing and the mode-select pin reads low (0), and then the
    machine is ready; when the pin reads high, or the set-up raises, it
    returns [False] and the machine is in the error state. *)
Theorem connect_succeeds_iff_pin_low (h : hw) (m : t) :
  ((_connect h m).1 = true <->
     setup_raises h = false /\ io_input h (_modeSelectPin m) = 0) /\
  ((_connect h m).1 = true -> state (_connect h m).2 = STATE_RUNNING) /\
  ((_connect h m).1 = false -> state (_connect h m).2 = STATE_ERROR).
Proof.
  unfold _connect, truthy. cbv zeta. cbn [_modeSelectPin _initializing set_state].
  destruct (setup_raises h); cbn.
  - split_and!; [split|..]; try done. by intros [? _].
  - destruct (Z.eqb_spec (io_input h (_modeSelectPin m)) 0) as [E|E]; cbn;
      split_and!; try split; try done. by intros [_ ?].
Qed.

(** C2 as the specification states it fails: with the mode-select pin low
    [_connect] succeeds and the machine is ready; with the pin high it
    refuses. *)
Lemma connect_refuses_high_pin :
  let low := board 0 0x1ff 0xffff in
  let high := board 1 0x1ff 0xffff in
  let m := init identity_keymap in
  io_input low (_modeSelectPin m) = 0 /\
  (_connect low m).1 = true /\ state (_connect low m).2 = STATE_RUNNING /\
  io_input high (_modeSelectPin m) = 1 /\
  (_connect high m).1 = false /\ state (_connect high m).2 = STATE_ERROR.
Proof. vm_compute. repeat split. Qed.

Lemma connect_keeps_finished (h : hw) (m : t) :
  finished (_connect h m).2 = finished m.
Proof.
  unfold _connect. cbv zeta.
  destruct (setup_raises h); [done|]. by destruct (truthy _).
Qed.

(** Whatever the second attempt gives, [_reconnect] returns it: after a
    failed first attempt, and with no shutdown signalled, there is one sleep
    of half a second, one more [_connect], and the [return]. *)
Lemma reconnect_single_retry (fuel : nat) (h1 h2 : hw) (hs : list hw) (m : t) :
  finished m = false -> (_connect h1 m).1 = false ->
  _reconnect (S fuel) (h1 :: h2 :: hs) m =
    let r := _connect h2 (emit (Sleep 500) (_connect h1 m).2) in
    Some (Some r.1, r.2, hs).
Proof.
  intros Hf Hc. unfold _reconnect.
  pose proof (connect_keeps_finished h1 m) as Hk.
  destruct (_connect h1 m) as [c m1]. simpl in Hc, Hk. subst c.
  cbn [while_return]. rewrite Hk, Hf. cbn.
  by destruct (_connect h2 (emit (Sleep 500) m1)).
Qed.

(** C5: the [return] sits inside the loop body, so [_reconnect] makes one
    retry and returns its result.  Here the board refuses twice and would
    accept the third attempt, and no shutdown is signalled: the function
    returns [False] after one sleep, with the third snapshot unused. *)
Lemma reconnect_returns_after_one_retry :
  let bad := board 1 0x1ff 0xffff in
  let good := board 0 0x1ff 0xffff in
  let m := init identity_keymap in
  finished m = false /\
  (_connect bad m).1 = false /\ (_connect good m).1 = true /\
  exists m',
    _reconnect 10 [bad; bad; good] m = Some (Some false, m', [good]) /\
    finished m' = false /\
    state m' = STATE_ERROR /\
    log m' =
      [Warning "NKRO not selected on board. TinyMod4 plugin Disabled.";
       Sleep 500;
       Warning "NKRO not selected on board. TinyMod4 plugin Disabled."].
Proof.
  intros bad good m. split_and!; try reflexivity.
  eexists. split_and!; reflexivity.
Qed.

End ConnectFacts.

(** ** The output worker *)

Section WorkerFacts.
Import TinyMod4Extension.

Lemma pack_uint_byte (v : Z) :
  0 <= v < 256 -> pack_uint 1 v = Some [byte_of v].
Proof.
  intros H. unfold pack_uint, byte_of. rewrite (proj2 (Z.leb_le 0 v)) by lia.
  cbn [le_bytes]. rewrite Z.mod_small, Z.div_small by lia.
  destruct (Byte.of_N (Z.to_N v)) as [x|] eqn:E; [done|].
  apply Byte.of_N_None_iff in E. lia.
Qed.

Lemma le_bytes_zero (n : nat) : le_bytes n 0 = Some (replicate n Byte.x00).
Proof.
  induction n as [|n IH]; [done|]. cbn [le_bytes].
  change (0 `mod` 256) with 0. change (0 `div` 256) with 0. by rewrite IH.
Qed.

Lemma pack_uint_zero (n : nat) : pack_uint n 0 = Some (replicate n Byte.x00).
Proof. apply le_bytes_zero. Qed.

Lemma pack_Q_zero : pack_Q 0 = Some trailer.
Proof. reflexivity. Qed.

Lemma hid_lut_range (char : N) (mod_ key : Z) :
  hid_lut char = Some (mod_, key) -> 0 <= mod_ < 256 /\ 0 <= key < 256.
Proof.
  unfold hid_lut. intros H. apply fmap_Some in H as ([c [m k]] & F & E).
  simpl in E. injection E as -> ->.
  apply find_some in F as [F _]. apply list_elem_of_In in F.
  assert (Forall (fun e : ascii * (Z * Z) =>
                    0 <= e.2.1 < 256 /\ 0 <= e.2.2 < 256) hid_lut_entries) as A
    by (repeat constructor; simpl; try done).
  rewrite Forall_forall in A. exact (A _ F).
Qed.

(** The table has no key twice, so the first match is the entry. *)
Lemma hid_lut_keys_distinct : NoDup (hid_lut_entries.*1).
Proof. apply (bool_decide_unpack _). vm_compute. exact I. Qed.

Ltac trace_eq :=
  unfold f_write, emit; cbn [_buffer out mbind option_bind];
  rewrite <- ?app_assoc; cbn [app]; try done.

Lemma pack_BBBBL_spec (long_size : nat) (mod_ key : Z) :
  0 <= mod_ < 256 -> 0 <= key < 256 ->
  pack_BBBBL long_size mod_ 0x00 key 0x00 0x00000000 =
    Some (record_of long_size mod_ key).
Proof.
  intros Hm Hk. unfold pack_BBBBL, record_of.
  rewrite !pack_uint_byte, pack_uint_zero by lia. cbn [mbind option_bind].
  by rewrite replicate_add.
Qed.

Lemma write_fallback_spec (long_size : nat) (w : t) :
  write_fallback long_size w =
    Some (mk (_buffer w)
            (out w ++ [DevWrite (record_of long_size NO_MOD 56);
                       DevWrite trailer])).
Proof.
  unfold write_fallback. rewrite pack_BBBBL_spec by (unfold NO_MOD; lia).
  cbn [mbind option_bind]. rewrite pack_Q_zero. trace_eq.
Qed.

Lemma write_char_spec (long_size : nat) (char : N) (w : t) :
  write_char long_size char w =
    Some (mk (_buffer w) (out w ++ char_records long_size char)).
Proof.
  unfold write_char, char_records, char_code.
  destruct (hid_lut char) as [[mod_ key]|] eqn:E.
  - destruct (hid_lut_range _ _ _ E) as [Hm Hk].
    rewrite pack_BBBBL_spec, pack_Q_zero by done. trace_eq.
  - apply write_fallback_spec.
Qed.

Lemma write_chars_spec (long_size : nat) (s : pystr) (w : t) :
  write_chars long_size s w =
    Some (mk (_buffer w) (out w ++ concat (char_records long_size <$> s))).
Proof.
  revert w. induction s as [|char s IH]; intros w; cbn [write_chars].
  - destruct w. cbn. by rewrite app_nil_r.
  - rewrite write_char_spec. cbn [mbind option_bind]. rewrite IH.
    cbn [fmap list_fmap concat]. trace_eq.
Qed.

Lemma write_backspaces_spec (long_size n : nat) (w : t) :
  write_backspaces long_size n w =
    Some (mk (_buffer w)
            (out w ++ concat (replicate n (backspace_records long_size)))).
Proof.
  revert w. induction n as [|n IH]; intros w; cbn [write_backspaces].
  - destruct w. cbn. by rewrite app_nil_r.
  - unfold write_backspace.
    rewrite pack_BBBBL_spec by (unfold NO_MOD; lia).
    cbn [mbind option_bind]. rewrite pack_Q_zero. cbn [mbind option_bind].
    trace_eq. rewrite IH. cbn [replicate concat]. trace_eq.
Qed.

(** Handling an action never raises, leaves the buffer alone and appends the
    events of that action. *)
Lemma handle_spec (long_size : nat) (a : action) (w : t) :
  handle long_size a w =
    Some (mk (_buffer w) (out w ++ events_of long_size a)).
Proof.
  destruct a as [s|b|c]; cbn [handle events_of].
  - rewrite write_chars_spec. trace_eq.
  - rewrite write_backspaces_spec. trace_eq.
  - reflexivity.
Qed.

Lemma handle_all_spec (long_size : nat) (acts : list action) (w : t) :
  handle_all long_size acts w =
    Some (mk (_buffer w)
            (out w ++ concat (events_of long_size <$> acts))).
Proof.
  revert w. induction acts as [|a acts IH]; intros w; cbn [handle_all].
  - destruct w. cbn. by rewrite app_nil_r.
  - rewrite handle_spec. cbn [mbind option_bind]. rewrite IH.
    cbn [fmap list_fmap concat]. trace_eq.
Qed.

Lemma py_pop_snoc {A} (l : list A) (x : A) : py_pop (l ++ [x]) = Some (x, l).
Proof. unfold py_pop. by rewrite last_snoc, removelast_last. Qed.

Lemma enqueue_all_spec (acts : list action) (w : t) :
  enqueue_all acts w = mk (reverse acts ++ _buffer w) (out w).
Proof.
  unfold enqueue_all. revert w. induction acts as [|a acts IH]; intros w.
  - by destruct w.
  - cbn [foldl]. rewrite IH, reverse_cons, <- app_assoc. by destruct a.
Qed.

(** The drain loop handles a buffer from its last item to its first. *)
Lemma drain_spec (long_size : nat) (acts : list action) :
  forall (fuel : nat) (o : list event),
    (length acts <= fuel)%nat ->
    drain long_size fuel (mk (reverse acts) o) =
      handle_all long_size acts (mk [] o).
Proof.
  unfold drain. induction acts as [|a acts IH]; intros fuel o Hf.
  - by destruct fuel.
  - destruct fuel as [|fuel]; [simpl in Hf; lia|].
    rewrite reverse_cons. cbn [while _buffer].
    rewrite length_app. cbn [length].
    replace (0 <? Z.of_nat (length (reverse acts) + 1)) with true
      by (symmetry; apply Z.ltb_lt; lia).
    rewrite py_pop_snoc. cbn [mbind option_bind out handle_all].
    rewrite !handle_spec. cbn [mbind option_bind _buffer out].
    rewrite IH by (simpl in Hf; lia). by rewrite !handle_all_spec.
Qed.

End WorkerFacts.

Section WorkerClaims.
Import TinyMod4Extension.

(** C1, as the code has it.  The hooks insert at index 0 and the worker pops
    the last item, so the buffer is a queue: the first action the worker
    pops is the first one enqueued, and a batch is handled in the order in
    which it was enqueued. *)
Theorem drain_first_in_first_out (long_size : nat) (acts : list action)
    (fuel : nat) (w : t) :
  _buffer w = [] -> (length acts <= fuel)%nat ->
  (fst <$> py_pop (_buffer (enqueue_all acts w))) = head acts /\
  exists w',
    drain long_size fuel (enqueue_all acts w) = Some w' /\
    handle_all long_size acts w = Some w' /\
    _buffer w' = [] /\
    out w' = out w ++ concat (events_of long_size <$> acts).
Proof.
  intros Hb Hf. rewrite enqueue_all_spec, Hb, app_nil_r. split.
  - destruct acts as [|a acts]; [done|].
    rewrite reverse_cons. cbn [_buffer]. by rewrite py_pop_snoc.
  - rewrite drain_spec by done. destruct w as [b o]. simpl in Hb. subst b.
    cbn [_buffer out]. rewrite handle_all_spec. eexists.
    split_and!; reflexivity.
Qed.

Lemma drain_first_in_first_out_witness :
  let a := act_string (str "a") in
  let b := act_backspace 1 in
  (fst <$> py_pop (_buffer (enqueue_all [a; b] init))) = head [a; b] /\
  exists w',
    drain 4 2 (enqueue_all [a; b] init) = Some w' /\
    handle_all 4 [a; b] init = Some w' /\
    _buffer w' = [] /\
    out w' = out init ++ concat (events_of 4 <$> [a; b]).
Proof.
  intros a b. apply (drain_first_in_first_out 4 [a; b] 2 init).
  - reflexivity.
  - simpl. lia.
Defined.

(** C1 as the specification states it fails: of two actions enqueued before
    the drain loop runs, the worker pops the first one first, and the
    device sees them in that order. *)
Lemma drain_not_last_in_first_out :
  let a := act_string (str "a") in
  let b := act_string (str "b") in
  let w := _send_string (str "b") (_send_string (str "a") init) in
  (fst <$> py_pop (_buffer w)) = Some a /\
  (fst <$> py_pop (_buffer w)) <> Some b /\
  drain 4 2 w = handle_all 4 [a; b] init /\
  drain 4 2 w <> handle_all 4 [b; a] init.
Proof. vm_compute. repeat split; discriminate. Qed.

(** C3, as the code has it, on the 32-bit target where the native
    [unsigned long] of [struct.pack] has 4 bytes.  Handling a string opens
    the device and writes, for each character in order, one 8-byte report
    with the modifier and the key code of the table, or [NO_MOD] and 56 when
    the table has no entry, and one trailer of 8 zero bytes; no character
    stops the loop.  ['a'] maps to [(NO_MOD, 4)].  For ["ab"] that is 4
    writes of 8 bytes each, two units of 16 bytes. *)
Theorem text_writes_report_and_trailer (long_size : nat) (s : pystr) (w : t) :
  long_size = 4%nat ->
  handle long_size (act_string s) w =
    Some (mk (_buffer w)
            (out w ++ DevOpen "/dev/hidg0" ::
               concat ((fun char =>
                          [DevWrite [byte_of (char_code char).1; Byte.x00;
                                     byte_of (char_code char).2; Byte.x00;
                                     Byte.x00; Byte.x00; Byte.x00; Byte.x00];
                           DevWrite (replicate 8 Byte.x00)]) <$> s) ++
               [DevClose])) /\
  (forall char,
     char_code char = match hid_lut char with
                      | Some code => code
                      | None => (NO_MOD, 56)
                      end) /\
  char_code (N_of_ascii "a") = (NO_MOD, 4) /\
  (written ∘ out <$> handle long_size (act_string (str "ab")) init) =
    Some [ [Byte.x00; Byte.x00; Byte.x04; Byte.x00;
            Byte.x00; Byte.x00; Byte.x00; Byte.x00];
           replicate 8 Byte.x00;
           [Byte.x00; Byte.x00; Byte.x05; Byte.x00;
            Byte.x00; Byte.x00; Byte.x00; Byte.x00];
           replicate 8 Byte.x00 ].
Proof.
  intros ->. split_and!.
  - rewrite handle_spec. reflexivity.
  - intros char. unfold char_code. by destruct (hid_lut char).
  - reflexivity.
  - reflexivity.
Qed.

Lemma text_writes_report_and_trailer_witness :
  handle 4 (act_string [97; 1; 98]%N) init =
    Some (mk (_buffer init)
            (out init ++ DevOpen "/dev/hidg0" ::
               concat ((fun char =>
                          [DevWrite [byte_of (char_code char).1; Byte.x00;
                                     byte_of (char_code char).2; Byte.x00;
                                     Byte.x00; Byte.x00; Byte.x00; Byte.x00];
                           DevWrite (replicate 8 Byte.x00)])
                         <$> [97; 1; 98]%N) ++
               [DevClose])) /\
  (forall char,
     char_code char = match hid_lut char with
                      | Some code => code
                      | None => (NO_MOD, 56)
                      end) /\
  char_code (N_of_ascii "a") = (NO_MOD, 4) /\
  (written ∘ out <$> handle 4 (act_string (str "ab")) init) =
    Some [ [Byte.x00; Byte.x00; Byte.x04; Byte.x00;
            Byte.x00; Byte.x00; Byte.x00; Byte.x00];
           replicate 8 Byte.x00;
           [Byte.x00; Byte.x00; Byte.x05; Byte.x00;
            Byte.x00; Byte.x00; Byte.x00; Byte.x00];
           replicate 8 Byte.x00 ].
Proof.
  apply (text_writes_report_and_trailer 4 [97; 1; 98]%N init). reflexivity.
Defined.

(** C3 as the specification states it fails in its count: draining
    [Text("ab")] gives 4 writes of 8 bytes, 32 bytes in all, not 4 units of
    16 bytes.  (Where the native long has 8 bytes the reports have 16 bytes
    and the trailers 8, 48 bytes in all.) *)
Lemma text_ab_is_not_four_sixteen_byte_units :
  let w := _send_string (str "ab") init in
  ((fun w => length <$> written (out w)) <$> drain 4 1 w) = Some [8; 8; 8; 8]%nat /\
  ((fun w => length (concat (written (out w)))) <$> drain 4 1 w) = Some 32%nat /\
  (32 <> 4 * 16)%nat /\
  ((fun w => length <$> written (out w)) <$> drain 8 1 w) = Some [16; 8; 16; 8]%nat /\
  ((fun w => length (concat (written (out w)))) <$> drain 8 1 w) = Some 48%nat /\
  (48 <> 4 * 16)%nat.
Proof. vm_compute. repeat split; discriminate. Qed.

End WorkerClaims.

(** ** The words of the stack, one by one *)

Section StackWords.
Import ForthStack.

Lemma mod_up_down (p n : Z) : 0 <= p < n -> ((p + 1) mod n - 1) mod n = p.
Proof.
  intros H. rewrite Zminus_mod_idemp_l.
  replace (p + 1 - 1) with p by lia. apply Z.mod_small. lia.
Qed.

Lemma mod_down_up (p n : Z) : 0 <= p < n -> ((p - 1) mod n + 1) mod n = p.
Proof.
  intros H. rewrite Zplus_mod_idemp_l.
  replace (p - 1 + 1) with p by lia. apply Z.mod_small. lia.
Qed.

Lemma mod_down_ne (p n : Z) : 0 <= p < n -> 2 <= n -> (p - 1) mod n <> p.
Proof.
  intros H Hn E. destruct (decide (p = 0)) as [->|Hp].
  - replace (0 - 1) with (n - 1 + -1 * n) in E by lia.
    rewrite Z.mod_add, Z.mod_small in E by lia. lia.
  - rewrite Z.mod_small in E by lia. lia.
Qed.

Lemma pow2_pos (k : nat) : 0 < 2 ^ Z.of_nat k.
Proof. apply Z.pow_pos_nonneg; lia. Qed.

Lemma pow2_ge_2 (k : nat) : (1 <= k)%nat -> 2 <= 2 ^ Z.of_nat k.
Proof.
  intros H. change 2 with (2 ^ 1) at 1. apply Z.pow_le_mono_r; lia.
Qed.

(** The two primitive words on a well-formed stack, in closed form. *)
Lemma push_eq (k : nat) (n : Z) (s : t) :
  wf k s ->
  push n s =
    Some (mk (_stackSize s) (_stackMask s)
            (<[Z.to_nat ((_p s + 1) mod 2 ^ Z.of_nat k):=n]> (_stack s))
            ((_p s + 1) mod 2 ^ Z.of_nat k)).
Proof.
  intros (Hk & Hm & Hl & Hp). pose proof (pow2_pos k).
  unfold push. rewrite Hm, land_mask_mod.
  pose proof (Z.mod_pos_bound (_p s + 1) (2 ^ Z.of_nat k)).
  by rewrite py_setitem_Some by lia.
Qed.

Lemma pop_eq (k : nat) (s : t) :
  wf k s ->
  exists x,
    _stack s !! Z.to_nat (_p s) = Some x /\
    pop s =
      Some (x, mk (_stackSize s) (_stackMask s) (_stack s)
                  ((_p s - 1) mod 2 ^ Z.of_nat k)).
Proof.
  intros (Hk & Hm & Hl & Hp).
  destruct (lookup_lt_is_Some_2 (_stack s) (Z.to_nat (_p s))) as [x Hx]; [lia|].
  exists x. split; [done|].
  unfold pop, py_getitem. rewrite py_index_Some by lia. simpl.
  by rewrite Hx, Hm, land_mask_mod.
Qed.

Lemma wf_mk (k : nat) (s : t) :
  wf k s ->
  exists l p,
    s = mk (2 ^ Z.of_nat k) (2 ^ Z.of_nat k - 1) l p /\
    Z.of_nat (length l) = 2 ^ Z.of_nat k /\ 0 <= p < 2 ^ Z.of_nat k.
Proof.
  destruct s as [sz mask l p]. intros (Hk & Hm & Hl & Hp). simpl in *.
  subst. exists l, p. split_and!; [done|done|lia..].
Qed.

Lemma wf_intro (k : nat) (l : list Z) (p : Z) :
  Z.of_nat (length l) = 2 ^ Z.of_nat k -> 0 <= p < 2 ^ Z.of_nat k ->
  wf k (mk (2 ^ Z.of_nat k) (2 ^ Z.of_nat k - 1) l p).
Proof. intros Hl Hp. split_and!; simpl; lia. Qed.

(** X1.  A push followed by a pop gives back the pushed value and the
    pointer; only the slot above the old top of stack has changed. *)
Theorem push_then_pop (k : nat) (n : Z) (s : t) :
  wf k s ->
  exists s',
    (push n s ≫= pop) = Some (n, s') /\
    _p s' = _p s /\ wf k s' /\
    forall i : nat,
      i <> Z.to_nat ((_p s + 1) mod 2 ^ Z.of_nat k) ->
      _stack s' !! i = _stack s !! i.
Proof.
  intros H. rewrite (push_eq k n s H).
  destruct (wf_mk k s H) as (l & p & -> & Hl & Hp). cbn [_stack _p _stackSize _stackMask].
  pose proof (Z.mod_pos_bound (p + 1) (2 ^ Z.of_nat k)) as Hb.
  set (q := (p + 1) mod 2 ^ Z.of_nat k) in *.
  assert (wf k (mk (2 ^ Z.of_nat k) (2 ^ Z.of_nat k - 1) (<[Z.to_nat q:=n]> l) q))
    as W by (apply wf_intro; [rewrite length_insert|]; lia).
  destruct (pop_eq k _ W) as (x & Hx & E). cbn [_stack _p _stackSize _stackMask] in *.
  rewrite list_lookup_insert_eq in Hx by lia. injection Hx as <-.
  eexists. cbn [mbind option_bind]. rewrite E. split; [reflexivity|].
  cbn [_stack _p]. split_and!.
  - unfold q. apply mod_up_down. lia.
  - apply wf_intro; [rewrite length_insert; lia|].
    apply Z.mod_pos_bound. lia.
  - intros i Hi. by rewrite list_lookup_insert_ne.
Qed.

Lemma push_then_pop_witness :
  exists s',
    (push 7 (init 8 7) ≫= pop) = Some (7, s') /\
    _p s' = _p (init 8 7) /\ wf 3 s' /\
    forall i : nat,
      i <> Z.to_nat ((_p (init 8 7) + 1) mod 2 ^ Z.of_nat 3) ->
      _stack s' !! i = _stack (init 8 7) !! i.
Proof.
  apply (push_then_pop 3 7 (init 8 7)).
  repeat split; try reflexivity; simpl; lia.
Defined.

Lemma drop_eq (k : nat) (l : list Z) (p : Z) :
  Z.of_nat (length l) = 2 ^ Z.of_nat k -> 0 <= p < 2 ^ Z.of_nat k ->
  drop (mk (2 ^ Z.of_nat k) (2 ^ Z.of_nat k - 1) l p) =
    Some (mk (2 ^ Z.of_nat k) (2 ^ Z.of_nat k - 1) l
            ((p - 1) mod 2 ^ Z.of_nat k)).
Proof.
  intros Hl Hp. unfold drop.
  destruct (pop_eq k _ (wf_intro k l p Hl Hp)) as (x & _ & ->). done.
Qed.

Lemma times_drop (k : nat) (l : list Z) (n : nat) :
  Z.of_nat (length l) = 2 ^ Z.of_nat k ->
  forall p, 0 <= p < 2 ^ Z.of_nat k ->
  times n drop (mk (2 ^ Z.of_nat k) (2 ^ Z.of_nat k - 1) l p) =
    Some (mk (2 ^ Z.of_nat k) (2 ^ Z.of_nat k - 1) l
            ((p - Z.of_nat n) mod 2 ^ Z.of_nat k)).
Proof.
  intros Hl. induction n as [|n IH]; intros p Hp.
  - cbn [times]. rewrite Z.sub_0_r, Z.mod_small by lia. done.
  - cbn [times]. rewrite drop_eq by done. cbn [mbind option_bind].
    rewrite IH by (apply Z.mod_pos_bound; lia).
    rewrite Zminus_mod_idemp_l. do 3 f_equal. lia.
Qed.

(** X2.  [back] undoes [drop]: the stack is the very same afterwards, the
    dropped item is the top of stack again.  So do as many drops as the
    stack has slots: popping never removes anything, it only turns the
    ring. *)
Theorem back_undoes_drop (k : nat) (s : t) :
  wf k s ->
  (drop s ≫= back) = Some s /\
  times (Z.to_nat (_stackSize s)) drop s = Some s.
Proof.
  intros H. destruct (wf_mk k s H) as (l & p & -> & Hl & Hp).
  pose proof (pow2_pos k) as Hpos. split.
  - rewrite drop_eq by done. cbn [mbind option_bind]. unfold back.
    cbn [_stackSize]. rewrite times_drop by (try apply Z.mod_pos_bound; lia).
    rewrite Zminus_mod_idemp_l, Z2Nat.id by lia.
    replace (p - 1 - (2 ^ Z.of_nat k - 1)) with (p + -1 * 2 ^ Z.of_nat k) by lia.
    by rewrite Z.mod_add, Z.mod_small by lia.
  - cbn [_stackSize]. rewrite times_drop by done. rewrite Z2Nat.id by lia.
    replace (p - 2 ^ Z.of_nat k) with (p + -1 * 2 ^ Z.of_nat k) by lia.
    by rewrite Z.mod_add, Z.mod_small by lia.
Qed.

Lemma back_undoes_drop_witness :
  (drop (init 8 7) ≫= back) = Some (init 8 7) /\
  times (Z.to_nat (_stackSize (init 8 7))) drop (init 8 7) = Some (init 8 7).
Proof.
  apply (back_undoes_drop 3 (init 8 7)).
  repeat split; try reflexivity; simpl; lia.
Defined.

Lemma unop_eq (k : nat) (f : Z -> Z) (l : list Z) (p : Z) (x : Z) :
  Z.of_nat (length l) = 2 ^ Z.of_nat k -> 0 <= p < 2 ^ Z.of_nat k ->
  l !! Z.to_nat p = Some x ->
  unop f (mk (2 ^ Z.of_nat k) (2 ^ Z.of_nat k - 1) l p) =
    Some (mk (2 ^ Z.of_nat k) (2 ^ Z.of_nat k - 1) (<[Z.to_nat p:=f x]> l) p).
Proof.
  intros Hl Hp Hx. unfold unop, py_getitem. cbn [_stack _p].
  rewrite py_index_Some by lia. cbn [mbind option_bind]. rewrite Hx.
  cbn [mbind option_bind]. rewrite py_setitem_Some by lia. done.
Qed.

(** X3.  [invert] and [negate] are their own inverses: applied twice they
    leave the stack as it was. *)
Theorem invert_negate_involutive (k : nat) (s : t) :
  wf k s ->
  (invert s ≫= invert) = Some s /\ (negate s ≫= negate) = Some s.
Proof.
  intros H. destruct (wf_mk k s H) as (l & p & -> & Hl & Hp).
  destruct (lookup_lt_is_Some_2 l (Z.to_nat p)) as [x Hx]; [lia|].
  assert (forall f : Z -> Z, (forall y, f (f y) = y) ->
            (unop f (mk (2 ^ Z.of_nat k) (2 ^ Z.of_nat k - 1) l p) ≫= unop f)
            = Some (mk (2 ^ Z.of_nat k) (2 ^ Z.of_nat k - 1) l p)) as A.
  { intros f Hf. rewrite (unop_eq k f l p x) by done. cbn [mbind option_bind].
    rewrite (unop_eq k f _ p (f x)).
    - by rewrite list_insert_insert_eq, Hf, list_insert_id.
    - by rewrite length_insert.
    - done.
    - apply list_lookup_insert_eq. lia. }
  split; apply A; intros y; [apply Z.lnot_involutive|apply Z.opp_involutive].
Qed.

Lemma invert_negate_involutive_witness :
  (invert (init 8 7) ≫= invert) = Some (init 8 7) /\
  (negate (init 8 7) ≫= negate) = Some (init 8 7).
Proof.
  apply (invert_negate_involutive 3 (init 8 7)).
  repeat split; try reflexivity; simpl; lia.
Defined.

(** Two pops, read off the list: the top of stack and the item below it. *)
Lemma pop_pop_inv (k : nat) (l : list Z) (p a b : Z) (s1 s2 : t) :
  Z.of_nat (length l) = 2 ^ Z.of_nat k -> 0 <= p < 2 ^ Z.of_nat k ->
  pop (mk (2 ^ Z.of_nat k) (2 ^ Z.of_nat k - 1) l p) = Some (a, s1) ->
  pop s1 = Some (b, s2) ->
  l !! Z.to_nat p = Some a /\
  l !! Z.to_nat ((p - 1) mod 2 ^ Z.of_nat k) = Some b /\
  s1 = mk (2 ^ Z.of_nat k) (2 ^ Z.of_nat k - 1) l
          ((p - 1) mod 2 ^ Z.of_nat k) /\
  s2 = mk (2 ^ Z.of_nat k) (2 ^ Z.of_nat k - 1) l
          (((p - 1) mod 2 ^ Z.of_nat k - 1) mod 2 ^ Z.of_nat k).
Proof.
  intros Hl Hp E1 E2. pose proof (pow2_pos k) as Hpos.
  destruct (pop_eq k _ (wf_intro k l p Hl Hp)) as (x & Hx & E).
  rewrite E in E1. injection E1 as <- <-. cbn [_stack _p _stackSize _stackMask] in *.
  pose proof (Z.mod_pos_bound (p - 1) (2 ^ Z.of_nat k) Hpos) as Hb.
  destruct (pop_eq k _ (wf_intro k l _ Hl Hb)) as (y & Hy & E').
  rewrite E' in E2. injection E2 as <- <-. done.
Qed.

(** X4.  [swap] exchanges the two top items and nothing else, and keeps the
    pointer; applied twice it leaves the stack as it was. *)
Theorem swap_exchanges_top_two (k : nat) (s s1 s2 : t) (a b : Z) :
  wf k s -> pop s = Some (a, s1) -> pop s1 = Some (b, s2) ->
  (exists s' s1' s2',
     swap s = Some s' /\ _p s' = _p s /\
     pop s' = Some (b, s1') /\ pop s1' = Some (a, s2') /\ _p s2' = _p s2) /\
  (swap s ≫= swap) = Some s.
Proof.
  intros H E1 E2. destruct (wf_mk k s H) as (l & p & -> & Hl & Hp).
  pose proof (pow2_pos k) as Hpos.
  destruct (pop_pop_inv k l p a b s1 s2 Hl Hp E1 E2) as (Ha & Hb & -> & ->).
  set (N := 2 ^ Z.of_nat k) in *. set (p1 := (p - 1) mod N) in *.
  pose proof (Z.mod_pos_bound (p - 1) N Hpos) as Hp1. fold p1 in Hp1.
  pose proof (Z.mod_pos_bound (p1 - 1) N Hpos) as Hp2.
  assert ((p1 + 1) mod N = p) as Up1 by (apply mod_down_up; lia).
  assert (((p1 - 1) mod N + 1) mod N = p1) as Up2 by (apply mod_down_up; lia).
  assert (swap (mk N (N - 1) l p) =
            Some (mk N (N - 1) (<[Z.to_nat p:=b]> (<[Z.to_nat p1:=a]> l)) p))
    as Hswap.
  { unfold swap. rewrite E1. cbn [mbind option_bind]. rewrite E2.
    cbn [mbind option_bind].
    rewrite (push_eq k) by (apply wf_intro; lia). cbn [mbind option_bind].
    cbn [_stack _p _stackSize _stackMask]. fold N.
    rewrite (push_eq k) by (apply wf_intro; [rewrite length_insert|apply Z.mod_pos_bound]; lia).
    cbn [_stack _p _stackSize _stackMask]. fold N.
    by rewrite Up2, Up1. }
  assert (<[Z.to_nat p:=b]> (<[Z.to_nat p1:=a]> l) !! Z.to_nat p1 = Some a) as Hl1.
  { destruct (decide (p1 = p)) as [Heq|Hne].
    - rewrite Heq in *. rewrite list_lookup_insert_eq
        by (rewrite length_insert; lia). congruence.
    - rewrite list_lookup_insert_ne by lia.
      apply list_lookup_insert_eq. lia. }
  split.
  - rewrite Hswap. eexists _, _, _. split; [reflexivity|]. split; [reflexivity|].
    assert (wf k (mk N (N - 1) (<[Z.to_nat p:=b]> (<[Z.to_nat p1:=a]> l)) p)) as W
      by (apply wf_intro; [rewrite !length_insert|]; lia).
    destruct (pop_eq k _ W) as (x & Hx & E). cbn [_stack _p _stackSize _stackMask] in *.
    rewrite list_lookup_insert_eq in Hx by (rewrite length_insert; lia).
    injection Hx as <-. fold N p1 in E. rewrite E.
    split; [reflexivity|].
    assert (wf k (mk N (N - 1) (<[Z.to_nat p:=b]> (<[Z.to_nat p1:=a]> l)) p1))
      as W1 by (apply wf_intro; [rewrite !length_insert|]; lia).
    destruct (pop_eq k _ W1) as (y & Hy & E'). cbn [_stack _p _stackSize _stackMask] in *.
    rewrite Hl1 in Hy. injection Hy as <-. fold N in E'. rewrite E'. done.
  - rewrite Hswap. cbn [mbind option_bind].
    assert (wf k (mk N (N - 1) (<[Z.to_nat p:=b]> (<[Z.to_nat p1:=a]> l)) p)) as W
      by (apply wf_intro; [rewrite !length_insert|]; lia).
    destruct (pop_eq k _ W) as (x & Hx & E). cbn [_stack _p _stackSize _stackMask] in *.
    rewrite list_lookup_insert_eq in Hx by (rewrite length_insert; lia).
    injection Hx as <-. fold N p1 in E.
    assert (wf k (mk N (N - 1) (<[Z.to_nat p:=b]> (<[Z.to_nat p1:=a]> l)) p1))
      as W1 by (apply wf_intro; [rewrite !length_insert|]; lia).
    destruct (pop_eq k _ W1) as (y & Hy & E'). cbn [_stack _p _stackSize _stackMask] in *.
    rewrite Hl1 in Hy. injection Hy as <-. fold N in E'.
    unfold swap. rewrite E. cbn [mbind option_bind]. rewrite E'.
    cbn [mbind option_bind].
    rewrite (push_eq k) by (apply wf_intro; [rewrite !length_insert|]; lia).
    cbn [mbind option_bind _stack _p _stackSize _stackMask]. fold N.
    rewrite (push_eq k)
      by (apply wf_intro; [rewrite !length_insert|apply Z.mod_pos_bound]; lia).
    cbn [_stack _p _stackSize _stackMask]. fold N.
    rewrite Up2, Up1. do 2 f_equal. apply list_eq. intros i.
    destruct (decide (i = Z.to_nat p)) as [->|Hi].
    + rewrite list_lookup_insert_eq by (rewrite !length_insert; lia). done.
    + rewrite list_lookup_insert_ne by done.
      destruct (decide (i = Z.to_nat p1)) as [->|Hi1].
      * rewrite list_lookup_insert_eq by (rewrite !length_insert; lia). done.
      * by rewrite !list_lookup_insert_ne by done.
Qed.

Lemma swap_exchanges_top_two_witness :
  let s := mk 8 7 [0; 1; 2; 0; 0; 0; 0; 0] 2 in
  let s1 := mk 8 7 [0; 1; 2; 0; 0; 0; 0; 0] 1 in
  let s2 := mk 8 7 [0; 1; 2; 0; 0; 0; 0; 0] 0 in
  (exists s' s1' s2',
     swap s = Some s' /\ _p s' = _p s /\
     pop s' = Some (1, s1') /\ pop s1' = Some (2, s2') /\ _p s2' = _p s2) /\
  (swap s ≫= swap) = Some s.
Proof.
  intros s s1 s2. apply (swap_exchanges_top_two 3 s s1 s2 2 1).
  - repeat split; try reflexivity; simpl; lia.
  - reflexivity.
  - reflexivity.
Defined.

(** X5.  [over] pushes a copy of the second item and changes nothing else:
    it is the push of that item. *)
Theorem over_pushes_second (k : nat) (s s1 s2 : t) (a b : Z) :
  wf k s -> pop s = Some (a, s1) -> pop s1 = Some (b, s2) ->
  over s = push b s.
Proof.
  intros H E1 E2. destruct (wf_mk k s H) as (l & p & -> & Hl & Hp).
  pose proof (pow2_pos k) as Hpos.
  destruct (pop_pop_inv k l p a b s1 s2 Hl Hp E1 E2) as (Ha & Hb & -> & ->).
  set (N := 2 ^ Z.of_nat k) in *. set (p1 := (p - 1) mod N) in *.
  pose proof (Z.mod_pos_bound (p - 1) N Hpos) as Hp1. fold p1 in Hp1.
  pose proof (Z.mod_pos_bound (p1 - 1) N Hpos) as Hp2.
  assert ((p1 + 1) mod N = p) as Up1 by (apply mod_down_up; lia).
  assert (((p1 - 1) mod N + 1) mod N = p1) as Up2 by (apply mod_down_up; lia).
  unfold over. rewrite E1. cbn [mbind option_bind]. rewrite E2.
  cbn [mbind option_bind].
  rewrite (push_eq k) by (apply wf_intro; lia).
  cbn [mbind option_bind _stack _p _stackSize _stackMask]. fold N.
  rewrite Up2, (list_insert_id l _ b Hb).
  rewrite (push_eq k) by (apply wf_intro; lia).
  cbn [mbind option_bind _stack _p _stackSize _stackMask]. fold N.
  rewrite Up1, (list_insert_id l _ a Ha). reflexivity.
Qed.

Lemma over_pushes_second_witness :
  let s := mk 8 7 [0; 1; 2; 0; 0; 0; 0; 0] 2 in
  over s = push 1 s.
Proof.
  intros s.
  apply (over_pushes_second 3 s (mk 8 7 [0; 1; 2; 0; 0; 0; 0; 0] 1)
           (mk 8 7 [0; 1; 2; 0; 0; 0; 0; 0] 0) 2 1).
  - repeat split; try reflexivity; simpl; lia.
  - reflexivity.
  - reflexivity.
Defined.

(** X6.  The four binary words replace the two top items [a] (top) and [b]
    by [a + b], [a & b], [a | b] and [a ^ b]: the result is popped next,
    and the pointer is then where two pops would have left it. *)
Theorem binary_words_combine_top_two (k : nat) (s s1 s2 : t) (a b : Z) :
  wf k s -> pop s = Some (a, s1) -> pop s1 = Some (b, s2) ->
  Forall (fun w : (t -> option t) * (Z -> Z -> Z) =>
            exists s' s'',
              w.1 s = Some s' /\ pop s' = Some (w.2 a b, s'') /\
              _p s'' = _p s2)
         [(add, Z.add); (and_, Z.land); (or_, Z.lor); (xor, Z.lxor)].
Proof.
  intros H E1 E2. destruct (wf_mk k s H) as (l & p & -> & Hl & Hp).
  pose proof (pow2_pos k) as Hpos.
  destruct (pop_pop_inv k l p a b s1 s2 Hl Hp E1 E2) as (Ha & Hb & -> & ->).
  set (N := 2 ^ Z.of_nat k) in *. set (p1 := (p - 1) mod N) in *.
  pose proof (Z.mod_pos_bound (p - 1) N Hpos) as Hp1. fold p1 in Hp1.
  assert (forall f : Z -> Z -> Z,
            exists s' s'',
              binop f (mk N (N - 1) l p) = Some s' /\
              pop s' = Some (f a b, s'') /\
              _p s'' = (p1 - 1) mod N) as A.
  { intros f. unfold binop. rewrite E1. cbn [mbind option_bind].
    unfold py_getitem. cbn [_stack _p]. rewrite py_index_Some by lia.
    cbn [mbind option_bind]. rewrite Hb. cbn [mbind option_bind].
    rewrite py_setitem_Some by lia. cbn [mbind option_bind _stackSize _stackMask].
    assert (wf k (mk N (N - 1) (<[Z.to_nat p1:=f a b]> l) p1)) as W
      by (apply wf_intro; [rewrite length_insert|]; lia).
    destruct (pop_eq k _ W) as (x & Hx & E). cbn [_stack _p _stackSize _stackMask] in *.
    rewrite list_lookup_insert_eq in Hx by lia. injection Hx as <-.
    eexists _, _. split; [reflexivity|]. rewrite E. done. }
  repeat constructor; apply A.
Qed.

Lemma binary_words_combine_top_two_witness :
  let s := mk 8 7 [0; 6; 3; 0; 0; 0; 0; 0] 2 in
  Forall (fun w : (t -> option t) * (Z -> Z -> Z) =>
            exists s' s'',
              w.1 s = Some s' /\ pop s' = Some (w.2 3 6, s'') /\
              _p s'' = _p (mk 8 7 [0; 6; 3; 0; 0; 0; 0; 0] 0))
         [(add, Z.add); (and_, Z.land); (or_, Z.lor); (xor, Z.lxor)].
Proof.
  intros s.
  apply (binary_words_combine_top_two 3 s (mk 8 7 [0; 6; 3; 0; 0; 0; 0; 0] 1)
           (mk 8 7 [0; 6; 3; 0; 0; 0; 0; 0] 0) 3 6).
  - repeat split; try reflexivity; simpl; lia.
  - reflexivity.
  - reflexivity.
Defined.

End StackWords.

(** ** The decoding table *)

Section DecodeFacts.
Import TinyMod4Machine.

Lemma steno_order_table : steno_order = key_table.*2.
Proof. reflexivity. Qed.

Lemma decode_fold (a b : Z) :
  decode a b =
    foldl (fun keys row => append_if (tested a b row) row.2 keys) [] key_table.
Proof. reflexivity. Qed.

Lemma fold_filter (a b : Z) (rows : list (bool * Z * string))
    (keys : list string) :
  foldl (fun keys row => append_if (tested a b row) row.2 keys) keys rows =
    keys ++ (filter (fun row => tested a b row <> 0) rows).*2.
Proof.
  revert keys. induction rows as [|row rows IH]; intros keys; cbn [foldl].
  - by rewrite app_nil_r.
  - rewrite IH, filter_cons. unfold append_if at 1, truthy.
    destruct (Z.eqb_spec (tested a b row) 0) as [E|E]; cbn [negb].
    + by rewrite decide_False by tauto.
    + rewrite decide_True by done. by rewrite <- app_assoc.
Qed.

(** [decode] keeps the rows of the table whose bit is set. *)
Lemma decode_filter (a b : Z) :
  decode a b = (filter (fun row => tested a b row <> 0) key_table).*2.
Proof. by rewrite decode_fold, fold_filter. Qed.

Lemma key_names_distinct : NoDup steno_order.
Proof. apply (bool_decide_unpack _). vm_compute. exact I. Qed.

(** X7.  Whatever the masks, the key set comes out in the order of the
    [if] chain, each name at most once: it is a sublist of the 25 names. *)
Theorem decode_in_steno_order (a b : Z) :
  decode a b `sublist_of` steno_order /\ NoDup (decode a b).
Proof.
  assert (decode a b `sublist_of` steno_order) as H.
  { rewrite decode_filter, steno_order_table.
    apply fmap_sublist, sublist_filter. }
  split; [exact H|]. exact (sublist_NoDup _ _ key_names_distinct H).
Qed.

Lemma row_of_name (row row' : bool * Z * string) :
  row ∈ key_table -> row' ∈ key_table -> row.2 = row'.2 -> row = row'.
Proof.
  intros H H' E.
  assert (Forall (fun r => Forall (fun r' : bool * Z * string =>
                                     r.2 = r'.2 -> r = r') key_table)
                 key_table) as A.
  { apply (bool_decide_unpack _). vm_compute. exact I. }
  rewrite Forall_forall in A. specialize (A row H).
  rewrite Forall_forall in A. exact (A row' H' E).
Qed.

(** X8.  A name is in the key set exactly when its bit is set in its mask:
    for every row of the table, the name is decoded if and only if the
    tested AND is not zero. *)
Theorem decode_member_iff_bit (a b : Z) :
  Forall (fun row => row.2 ∈ decode a b <-> tested a b row <> 0) key_table.
Proof.
  apply Forall_forall. intros row Hrow. rewrite decode_filter.
  rewrite list_elem_of_fmap. split.
  - intros (row' & E & Hin). apply list_elem_of_filter in Hin as [Ht Hin].
    by rewrite (row_of_name row row' Hrow Hin E).
  - intros Ht. exists row. split; [done|]. by apply list_elem_of_filter.
Qed.

Lemma tested_low_bits (a b : Z) :
  Forall (fun row =>
            tested (Z.land a 0x1ff) (Z.land b 0xffff) row = tested a b row)
         key_table.
Proof.
  repeat constructor; unfold tested; cbn [fst snd];
    by rewrite <- Z.land_assoc.
Qed.

(** X9.  Only the nine low bits of [a] and the sixteen low bits of [b]
    count: the higher bits of the accumulated masks are ignored. *)
Theorem decode_ignores_high_bits (a b : Z) :
  decode (Z.land a 0x1ff) (Z.land b 0xffff) = decode a b.
Proof.
  rewrite !decode_filter. f_equal.
  pose proof (tested_low_bits a b) as H.
  induction H as [|row rows Hrow _ IH]; [done|].
  rewrite !filter_cons, IH, Hrow. done.
Qed.

(** X10.  The key set is empty, and [_send] stays silent, exactly when none
    of the nine low bits of [a] and none of the sixteen low bits of [b] is
    set. *)
Theorem decode_empty_iff (a b : Z) :
  decode a b = [] <-> Z.land a 0x1ff = 0 /\ Z.land b 0xffff = 0.
Proof.
  split.
  - intros E. pose proof (decode_member_iff_bit a b) as H. rewrite E in H.
    assert (Forall (fun row => tested a b row = 0) key_table) as H0.
    { eapply Forall_impl; [exact H|]. intros row [_ Hrow].
      destruct (decide (tested a b row = 0)) as [|Hne]; [done|].
      specialize (Hrow Hne). by apply elem_of_nil in Hrow. }
    clear H E. unfold key_table, tested in H0. cbn [fst snd] in H0.
    repeat match goal with
           | H : Forall _ (_ :: _) |- _ =>
               let H1 := fresh "B" in apply Forall_cons in H as [H1 H]
           end.
    cbn [fst snd] in *. split.
    + change 0x1ff with
        (Z.lor 0x10 (Z.lor 0x08 (Z.lor 0x20 (Z.lor 0x04 (Z.lor 0x40
          (Z.lor 0x02 (Z.lor 0x80 (Z.lor 0x01 0x100)))))))).
      rewrite !Z.land_lor_distr_r.
      repeat match goal with B : Z.land a _ = 0 |- _ => rewrite B; clear B end.
      reflexivity.
    + change 0xffff with
        (Z.lor 0x08 (Z.lor 0x10 (Z.lor 0x200 (Z.lor 0x20 (Z.lor 0x40
          (Z.lor 0x80 (Z.lor 0x8000 (Z.lor 0x01 (Z.lor 0x4000 (Z.lor 0x02
          (Z.lor 0x2000 (Z.lor 0x04 (Z.lor 0x1000 (Z.lor 0x800
          (Z.lor 0x100 0x400))))))))))))))).
      rewrite !Z.land_lor_distr_r.
      repeat match goal with B : Z.land b _ = 0 |- _ => rewrite B; clear B end.
      reflexivity.
  - intros [Ha Hb]. by rewrite <- decode_ignores_high_bits, Ha, Hb.
Qed.

End DecodeFacts.

(** ** The wiring *)

Section WiringFacts.
Import TinyMod4Machine.

Lemma mask_a_bits (h : hw) :
  Forall (fun pn => io_input h pn.1 = 0 \/ io_input h pn.1 = 1) pin_names ->
  (Z.land (mask_a h) 0x01 <> 0 <-> io_input h 16 = 0) /\
  (Z.land (mask_a h) 0x02 <> 0 <-> io_input h 20 = 0) /\
  (Z.land (mask_a h) 0x04 <> 0 <-> io_input h 21 = 0) /\
  (Z.land (mask_a h) 0x08 <> 0 <-> io_input h 1 = 0) /\
  (Z.land (mask_a h) 0x10 <> 0 <-> io_input h 26 = 0) /\
  (Z.land (mask_a h) 0x20 <> 0 <-> io_input h 19 = 0) /\
  (Z.land (mask_a h) 0x40 <> 0 <-> io_input h 13 = 0) /\
  (Z.land (mask_a h) 0x80 <> 0 <-> io_input h 6 = 0) /\
  (Z.land (mask_a h) 0x100 <> 0 <-> io_input h 0 = 0).
Proof.
  intros H. unfold pin_names in H.
  repeat match goal with
         | H : Forall _ (_ :: _) |- _ =>
             let H1 := fresh "B" in apply Forall_cons in H as [H1 H]
         end.
  cbn [fst snd] in *. clear H. unfold mask_a, raw_bits. cbv zeta.
  (destruct B as [B|B], B0 as [B0|B0], B1 as [B1|B1], B2 as [B2|B2],
    B3 as [B3|B3], B4 as [B4|B4], B5 as [B5|B5], B6 as [B6|B6],
    B7 as [B7|B7];
    rewrite B, B0, B1, B2, B3, B4, B5, B6, B7;
    vm_compute; intuition congruence).
Qed.
Lemma decode_row (a b : Z) (row : bool * Z * string) :
  row ∈ key_table -> row.2 ∈ decode a b <-> tested a b row <> 0.
Proof.
  intros H. pose proof (decode_member_iff_bit a b) as A.
  rewrite Forall_forall in A. exact (A row H).
Qed.

Ltac in_key_table := apply (bool_decide_unpack _); vm_compute; exact I.

(** X11.  The nine direct pins are active-low: when each of them reads 0 or
    1, the name wired to a pin is in the key set decoded from that reading
    exactly when the pin reads 0. *)
Theorem pins_are_active_low (h : hw) (b : Z) :
  Forall (fun pn => io_input h pn.1 = 0 \/ io_input h pn.1 = 1) pin_names ->
  Forall (fun pn => pn.2 ∈ decode (mask_a h) b <-> io_input h pn.1 = 0)
         pin_names.
Proof.
  intros H. destruct (mask_a_bits h H) as (B0&B1&B2&B3&B4&B5&B6&B7&B8).
  unfold pin_names.
  repeat (apply List.Forall_cons); [..|apply List.Forall_nil]; cbn [fst snd].
  - rewrite (decode_row _ _ (false, 0x01, "R-")) by in_key_table. exact B0.
  - rewrite (decode_row _ _ (false, 0x02, "W-")) by in_key_table. exact B1.
  - rewrite (decode_row _ _ (false, 0x04, "K-")) by in_key_table. exact B2.
  - rewrite (decode_row _ _ (false, 0x08, "S2-")) by in_key_table. exact B3.
  - rewrite (decode_row _ _ (false, 0x10, "S1-")) by in_key_table. exact B4.
  - rewrite (decode_row _ _ (false, 0x20, "T-")) by in_key_table. exact B5.
  - rewrite (decode_row _ _ (false, 0x40, "P-")) by in_key_table. exact B6.
  - rewrite (decode_row _ _ (false, 0x80, "H-")) by in_key_table. exact B7.
  - rewrite (decode_row _ _ (false, 0x100, "*1")) by in_key_table. exact B8.
Qed.

Lemma pins_are_active_low_witness :
  Forall (fun pn =>
            pn.2 ∈ decode (mask_a (board 1 0x1ef 0xffff)) 0 <->
            io_input (board 1 0x1ef 0xffff) pn.1 = 0)
         pin_names.
Proof.
  apply (pins_are_active_low (board 1 0x1ef 0xffff) 0).
  unfold pin_names.
  repeat (apply List.Forall_cons); [..|apply List.Forall_nil];
    vm_compute; auto.
Defined.

Lemma land_pow2_testbit (x i : Z) :
  0 <= i -> Z.land x (2 ^ i) <> 0 <-> Z.testbit x i = true.
Proof.
  intros Hi. split.
  - intros H. destruct (Z.testbit x i) eqn:E; [done|]. exfalso. apply H.
    apply Z.bits_inj'. intros j Hj.
    rewrite Z.land_spec, Z.bits_0, Z.pow2_bits_eqb by done.
    destruct (Z.eqb_spec i j) as [->|]; [by rewrite E|apply andb_false_r].
  - intros E H. apply (f_equal (fun y => Z.testbit y i)) in H.
    rewrite Z.land_spec, Z.bits_0, Z.pow2_bits_eqb, E, Z.eqb_refl in H by done.
    discriminate.
Qed.

Lemma byte_high_bits (x i : Z) : 0 <= x < 256 -> 8 <= i -> Z.testbit x i = false.
Proof.
  intros Hx Hi. apply Z.testbit_false; [lia|].
  rewrite Z.div_small; [done|]. split; [lia|].
  apply Z.lt_le_trans with (2 ^ 8); [lia|]. apply Z.pow_le_mono_r; lia.
Qed.

(** The bits of the inverted expander word, register by register. *)
Lemma mask_b_testbit (h : hw) (i : Z) :
  0 <= read_byte_data h 0x20 0x12 < 256 ->
  0 <= i < 16 ->
  Z.testbit (mask_b h) i =
    negb (if i <? 8 then Z.testbit (read_byte_data h 0x20 0x12) i
          else Z.testbit (read_byte_data h 0x20 0x13) (i - 8)).
Proof.
  intros Ha Hi. unfold mask_b, expander_word. cbv zeta.
  rewrite Z.lxor_spec, Z.lor_spec.
  change 0xffff with (Z.ones 16). rewrite Z.ones_spec_low by lia.
  rewrite xorb_true_r. f_equal.
  destruct (Z.ltb_spec i 8).
  - rewrite Z.shiftl_spec_low by lia. apply orb_false_r.
  - rewrite byte_high_bits by lia. rewrite Z.shiftl_spec by lia. done.
Qed.

(** X12.  The sixteen expander inputs are active-low too: when register
    0x12 reads a byte, the name wired to a bit of register 0x12 or 0x13 is
    in the key set decoded from that reading exactly when the bit is
    clear. *)
Theorem registers_are_active_low (h : hw) (a : Z) :
  0 <= read_byte_data h 0x20 0x12 < 256 ->
  Forall (fun rn =>
            rn.2 ∈ decode a (mask_b h) <->
            Z.testbit (read_byte_data h 0x20 rn.1.1) rn.1.2 = false)
         register_names.
Proof.
  intros Ha.
  assert (forall i name,
            0 <= i < 16 -> (true, 2 ^ i, name) ∈ key_table ->
            name ∈ decode a (mask_b h) <->
            (if i <? 8 then Z.testbit (read_byte_data h 0x20 0x12) i
             else Z.testbit (read_byte_data h 0x20 0x13) (i - 8)) = false) as A.
  { intros i name Hi Hin. rewrite (decode_row _ _ _ Hin). unfold tested.
    cbn [fst snd]. rewrite land_pow2_testbit, mask_b_testbit by lia.
    apply negb_true_iff. }
  unfold register_names.
  repeat (apply List.Forall_cons); [..|apply List.Forall_nil]; cbn [fst snd].
  - apply (A 0 "-R"); [lia|in_key_table].
  - apply (A 1 "-B"); [lia|in_key_table].
  - apply (A 2 "-G"); [lia|in_key_table].
  - apply (A 3 "A-"); [lia|in_key_table].
  - apply (A 4 "O-"); [lia|in_key_table].
  - apply (A 5 "#1"); [lia|in_key_table].
  - apply (A 6 "-E"); [lia|in_key_table].
  - apply (A 7 "-U"); [lia|in_key_table].
  - apply (A 8 "-D"); [lia|in_key_table].
  - apply (A 9 "*2"); [lia|in_key_table].
  - apply (A 10 "-Z"); [lia|in_key_table].
  - apply (A 11 "-S"); [lia|in_key_table].
  - apply (A 12 "-T"); [lia|in_key_table].
  - apply (A 13 "-L"); [lia|in_key_table].
  - apply (A 14 "-P"); [lia|in_key_table].
  - apply (A 15 "-F"); [lia|in_key_table].
Qed.

Lemma registers_are_active_low_witness :
  Forall (fun rn =>
            rn.2 ∈ decode 0 (mask_b (board 1 0x1ff 0xfdf7)) <->
            Z.testbit (read_byte_data (board 1 0x1ff 0xfdf7) 0x20 rn.1.1)
                      rn.1.2 = false)
         register_names.
Proof.
  apply (registers_are_active_low (board 1 0x1ff 0xfdf7) 0).
  vm_compute. split; congruence.
Defined.

End WiringFacts.

(** ** One round of the scan thread *)

Section RunFacts.
Import TinyMod4Machine.

Lemma while_invariant {S} (P : S -> Prop) (cond : S -> bool)
    (body : S -> option S) :
  (forall s s', P s -> body s = Some s' -> P s') ->
  forall (fuel : nat) (s s' : S),
    P s -> while fuel cond body s = Some s' -> P s' /\ cond s' = false.
Proof.
  intros Hbody. induction fuel as [|fuel IH]; intros s s' Hs E; cbn [while] in E.
  - destruct (cond s) eqn:C; [done|]. by injection E as <-.
  - destruct (cond s) eqn:C; [|by injection E as <-].
    destruct (body s) as [s1|] eqn:B; [|done]. cbn in E.
    apply (IH s1 s'); [|done]. by apply (Hbody s).
Qed.

(** What the polling leaves alone: the key map, the state, the flag, the
    log. *)
Lemma read_all_frame (h : hw) (m m' : t) :
  _read_all h m = Some m' ->
  keymap m' = keymap m /\ state m' = state m /\ finished m' = finished m /\
  log m' = log m.
Proof.
  unfold _read_all, read_all_merged, _read_raw_keys, _read_ab. cbv zeta.
  intros E. repeat (simplify_option_eq || case_match); done.
Qed.

Lemma read_next_frame (s s' : t * list hw) :
  read_next s = Some s' ->
  keymap s'.1 = keymap s.1 /\ state s'.1 = state s.1 /\
  finished s'.1 = finished s.1 /\ log s'.1 = log s.1.
Proof.
  unfold read_next. destruct s as [m [|h hs]]; cbn [fst snd]; [done|].
  destruct (_read_all h m) as [m1|] eqn:E; [|done]. cbn.
  intros [= <-]. by apply (read_all_frame h).
Qed.

Lemma scan_frame (fuel : nat) (m m' : t) (hs rest : list hw) :
  _scan fuel m hs = Some (m', rest) ->
  keymap m' = keymap m /\ state m' = state m /\ finished m' = finished m /\
  strokes (log m') = strokes (log m).
Proof.
  set (P := fun s : t * list hw =>
              keymap s.1 = keymap m /\ state s.1 = state m /\
              finished s.1 = finished m /\
              strokes (log s.1) = strokes (log m)).
  assert (forall s s', P s -> read_next s = Some s' -> P s') as Hread.
  { intros s s' (K & St & F & L) E.
    destruct (read_next_frame s s' E) as (K' & St' & F' & L').
    unfold P. by rewrite K', St', F', L'. }
  assert (forall s s', P s -> scan_settle fuel s = Some s' -> P s') as Hsettle.
  { intros s s' Hs E. unfold scan_settle in E.
    destruct (while fuel _ read_next s) as [s1|] eqn:W; [|done]. cbn in E.
    destruct (while_invariant P _ read_next Hread fuel s s1 Hs W)
      as [(K & St & F & L) _].
    apply (Hread (emit (Sleep 30) s1.1, s1.2)); [|done].
    unfold P. cbn [fst emit keymap state finished log].
    split_and!; try done. unfold strokes in *.
    by rewrite omap_app, app_nil_r. }
  unfold _scan. intros E.
  destruct (while fuel _ (scan_settle fuel) (m, hs)) as [s1|] eqn:W1; [|done].
  cbn in E.
  assert (P (m, hs)) as H0 by (unfold P; done).
  destruct (while_invariant P _ _ Hsettle fuel _ s1 H0 W1) as [H1 _].
  destruct (while fuel _ scan_accumulate (s1, 0, 0)) as [[[s2 a] b]|] eqn:W2;
    [|done].
  cbn in E.
  assert (forall x x' : t * list hw * Z * Z,
            P x.1.1 -> scan_accumulate x = Some x' -> P x'.1.1) as Hacc.
  { intros [[s a0] b0] x' Hs Ex. unfold scan_accumulate in Ex.
    destruct (read_next s) as [[m1 hs1]|] eqn:R; [|done]. cbn in Ex.
    pose proof (Hread s _ Hs R) as H. cbn [fst] in *.
    repeat (simplify_option_eq || case_match). exact H. }
  destruct (while_invariant (fun x : t * list hw * Z * Z => P x.1.1) _ _ Hacc
              fuel (s1, 0, 0) (s2, a, b) H1 W2) as [H2 _].
  cbn [fst] in H2. unfold push_masks in E.
  repeat (simplify_option_eq || case_match). exact H2.
Qed.

Lemma send_of_accumulated (m : t) (a b : Z) :
  stack_ok m -> accumulated m = Some (a, b) ->
  exists st,
    ForthStack.wf 3 st /\
    _send m = Some match decode a b with
                   | [] => set_stack st m
                   | _ :: _ => _on_stroke (decode a b) (set_stack st m)
                   end.
Proof.
  intros H A. unfold accumulated in A.
  destruct (pop_wf 3 _ H) as (x & s1 & E1 & W1 & _).
  destruct (pop_wf 3 s1 W1) as (y & s2 & E2 & W2 & _).
  rewrite E1 in A. cbn in A. rewrite E2 in A. cbn in A. injection A as <- <-.
  exists s2. split; [done|]. unfold _send. rewrite E1. cbn. rewrite E2. cbn.
  by destruct (decode y x).
Qed.

(** X13.  One round of the loop of [run].  On polls that end the waiting,
    then show keys down, then show no key, the round returns; it notifies
    one stroke, the key map's actions for the keys decoded from the union of
    the accumulated polls, or nothing when no key is decoded or the key map
    gives no action; and it leaves the machine ready for the next round.
    With no accumulated poll at all (keys up right after the settle delay)
    nothing is notified. *)
Theorem run_step_notifies_chord (pre acc : list hw) (z : hw) (rest : list hw)
    (fuel : nat) (m : t) :
  stack_ok m -> _pressed m = false ->
  waits pre ->
  Forall (fun h => keys_down h = true) acc ->
  keys_down z = false ->
  (length pre + length acc < fuel)%nat ->
  exists m',
    run_step fuel (m, pre ++ acc ++ z :: rest) = Some (m', rest) /\
    stack_ok m' /\ _pressed m' = false /\
    strokes (log m') =
      strokes (log m) ++
      match decode (union_masks acc).1 (union_masks acc).2 with
      | [] => []
      | keys =>
          match keys_to_actions (keymap m) keys with
          | [] => []
          | steno_keys => [steno_keys]
          end
      end.
Proof.
  intros Hm Hp Hpre Hacc Hz Hf.
  destruct (scan_spec pre acc z rest fuel m Hpre Hacc Hz Hm Hp Hf)
    as (m1 & E & A & W1 & P1).
  destruct (scan_frame fuel m m1 _ _ E) as (K & _ & _ & L).
  destruct (union_masks acc) as [ua ub] eqn:U. cbn [fst snd].
  destruct (send_of_accumulated m1 ua ub W1 A) as (st & Wst & S).
  unfold run_step. cbn [fst snd]. rewrite E. cbn. rewrite S. cbn.
  eexists. split; [reflexivity|].
  destruct (decode ua ub) as [|k ks] eqn:D.
  - cbn. rewrite app_nil_r. done.
  - unfold _on_stroke. cbn [keymap set_stack]. rewrite K.
    destruct (keys_to_actions (keymap m) (k :: ks)) as [|x xs]; cbn.
    + rewrite app_nil_r. done.
    + split_and!; try done. unfold strokes in *. rewrite omap_app, L. done.
Qed.

Lemma run_step_notifies_chord_witness :
  let idle := board 0 0x1ff 0xffff in
  let x := board 0 0x1ef 0xffff in
  let xy := board 0 0x1cf 0xfffe in
  let m := init identity_keymap in
  exists m',
    run_step 8 (m, [idle; x; x] ++ [x; xy] ++ idle :: []) = Some (m', []) /\
    stack_ok m' /\ _pressed m' = false /\
    strokes (log m') =
      strokes (log m) ++
      match decode (union_masks [x; xy]).1 (union_masks [x; xy]).2 with
      | [] => []
      | keys =>
          match keys_to_actions (keymap m) keys with
          | [] => []
          | steno_keys => [steno_keys]
          end
      end.
Proof.
  intros idle x xy m.
  apply (run_step_notifies_chord [idle; x; x] [x; xy] idle [] 8 m).
  - repeat split; try reflexivity; simpl; lia.
  - reflexivity.
  - apply (waits_done [idle] x x); [repeat constructor|reflexivity..].
  - repeat constructor.
  - reflexivity.
  - simpl. lia.
Defined.

End RunFacts.

Section ReconnectFacts.
Import TinyMod4Machine.

(** X14.  When the first attempt succeeds, or shutdown has been signalled,
    [_reconnect] makes no retry and does not sleep; it falls off its end,
    so the caller gets [None], not [True]. *)
Theorem reconnect_without_retry (fuel : nat) (h : hw) (hs : list hw) (m : t) :
  (_connect h m).1 = true \/ finished m = true ->
  _reconnect fuel (h :: hs) m = Some (None, (_connect h m).2, hs).
Proof.
  intros H. unfold _reconnect.
  pose proof (connect_keeps_finished h m) as F.
  destruct (_connect h m) as [c m1]. cbn [fst snd] in *.
  assert (negb (finished m1) && negb c = false) as C.
  { rewrite F. destruct H as [-> | ->]; [apply andb_false_r|done]. }
  destruct fuel; cbn [while_return]; rewrite C; done.
Qed.

Lemma reconnect_without_retry_witness :
  let good := board 0 0x1ff 0xffff in
  _reconnect 3 [good; good] (init identity_keymap) =
    Some (None, (_connect good (init identity_keymap)).2, [good]).
Proof.
  intros good. apply (reconnect_without_retry 3 good [good]).
  left. reflexivity.
Defined.

End ReconnectFacts.

(** ** More on the output worker *)

Section WorkerMore.
Import TinyMod4Extension.

(** X15.  On the 32-bit target, handling [Backspace(b)] opens the device,
    writes [b] times the 8-byte report of key 42 with no modifier and the
    8-byte zero trailer, and closes the device; for a count that is zero or
    negative it writes nothing between the opening and the closing. *)
Theorem backspace_writes_pairs (long_size : nat) (b : Z) (n : nat) (w : t) :
  long_size = 4%nat ->
  handle long_size (act_backspace b) w =
    Some (mk (_buffer w)
            (out w ++ DevOpen "/dev/hidg0" ::
               concat (replicate (Z.to_nat b)
                         [DevWrite [Byte.x00; Byte.x00; Byte.x2a; Byte.x00;
                                    Byte.x00; Byte.x00; Byte.x00; Byte.x00];
                          DevWrite (replicate 8 Byte.x00)]) ++
               [DevClose])) /\
  handle long_size (act_backspace (- Z.of_nat n)) w =
    Some (mk (_buffer w) (out w ++ [DevOpen "/dev/hidg0"; DevClose])).
Proof.
  intros ->. rewrite !handle_spec. split; [reflexivity|].
  cbn [events_of]. by replace (Z.to_nat (- Z.of_nat n)) with O by lia.
Qed.

Lemma backspace_writes_pairs_witness :
  handle 4 (act_backspace 3) init =
    Some (mk (_buffer init)
            (out init ++ DevOpen "/dev/hidg0" ::
               concat (replicate (Z.to_nat 3)
                         [DevWrite [Byte.x00; Byte.x00; Byte.x2a; Byte.x00;
                                    Byte.x00; Byte.x00; Byte.x00; Byte.x00];
                          DevWrite (replicate 8 Byte.x00)]) ++
               [DevClose])) /\
  handle 4 (act_backspace (- Z.of_nat 2)) init =
    Some (mk (_buffer init) (out init ++ [DevOpen "/dev/hidg0"; DevClose])).
Proof. apply (backspace_writes_pairs 4 3 2 init). reflexivity. Defined.

(** X16.  A character that the table does not have is sent as the key
    [/]: the fallback is key 56 with no modifier, which is the entry of
    [/], while [?] is key 56 with the left shift. *)
Theorem unmapped_char_is_sent_as_slash (long_size : nat) (char : N) (w : t) :
  hid_lut char = None ->
  write_char long_size char w = write_char long_size (N_of_ascii "/") w /\
  write_char long_size char w <> write_char long_size (N_of_ascii "?") w.
Proof.
  intros H. rewrite !write_char_spec. unfold char_records, char_code.
  rewrite H. split; [reflexivity|].
  intros E. injection E as E. apply app_inv_head in E. discriminate.
Qed.

Lemma unmapped_char_is_sent_as_slash_witness :
  write_char 4 233 init = write_char 4 (N_of_ascii "/") init /\
  write_char 4 233 init <> write_char 4 (N_of_ascii "?") init.
Proof. apply (unmapped_char_is_sent_as_slash 4 233 init). reflexivity. Defined.

Lemma hid_lut_entry (char : N) (code : Z * Z) :
  hid_lut char = Some code ->
  exists k, (k, code) ∈ hid_lut_entries /\ N_of_ascii k = char.
Proof.
  unfold hid_lut. intros H. apply fmap_Some in H as ([k c] & F & ->).
  apply find_some in F as [F E]. apply list_elem_of_In in F.
  exists k. split; [done|]. by apply N.eqb_eq in E.
Qed.

(** X17.  Two different characters have the same table entry only if they
    are [1] and [!]: the table gives [!] the key 30 without the shift, the
    entry of [1]. *)
Theorem hid_lut_collides_only_on_one (c1 c2 : N) (code : Z * Z) :
  hid_lut c1 = Some code -> hid_lut c2 = Some code ->
  c1 = c2 \/
  (c1 = N_of_ascii "1" /\ c2 = N_of_ascii "!") \/
  (c1 = N_of_ascii "!" /\ c2 = N_of_ascii "1").
Proof.
  intros H1 H2.
  destruct (hid_lut_entry c1 code H1) as (k1 & I1 & <-).
  destruct (hid_lut_entry c2 code H2) as (k2 & I2 & <-).
  assert (Forall (fun e1 : ascii * (Z * Z) =>
            Forall (fun e2 : ascii * (Z * Z) =>
              e1.2 = e2.2 ->
              e1.1 = e2.1 \/
              (e1.1 = "1"%char /\ e2.1 = "!"%char) \/
              (e1.1 = "!"%char /\ e2.1 = "1"%char))
              hid_lut_entries) hid_lut_entries) as A.
  { apply (bool_decide_unpack _). vm_compute. exact I. }
  rewrite Forall_forall in A. specialize (A _ I1).
  rewrite Forall_forall in A. specialize (A _ I2 eq_refl). cbn [fst snd] in A.
  destruct A as [->|[[-> ->]|[-> ->]]]; auto.
Qed.

Lemma hid_lut_collides_only_on_one_witness :
  N_of_ascii "!" = N_of_ascii "1" \/
  (N_of_ascii "!" = N_of_ascii "1" /\ N_of_ascii "1" = N_of_ascii "!") \/
  (N_of_ascii "!" = N_of_ascii "!" /\ N_of_ascii "1" = N_of_ascii "1").
Proof.
  apply (hid_lut_collides_only_on_one (N_of_ascii "!") (N_of_ascii "1")
           (NO_MOD, 30)); reflexivity.
Defined.

Lemma written_app (l1 l2 : list event) :
  written (l1 ++ l2) = written l1 ++ written l2.
Proof. apply omap_app. Qed.

Lemma written_session (l : list event) :
  written (DevOpen "/dev/hidg0" :: l ++ [DevClose]) = written l.
Proof.
  change (DevOpen "/dev/hidg0" :: l ++ [DevClose])
    with ([DevOpen "/dev/hidg0"] ++ l ++ [DevClose]).
  rewrite !written_app. change (written [DevClose]) with (@nil (list byte)).
  change (written [DevOpen "/dev/hidg0"]) with (@nil (list byte)).
  by rewrite app_nil_r.
Qed.

(** The writes of one action on the 32-bit target: two for each unit, of 8
    bytes each. *)
Lemma written_events_of (a : action) :
  Forall (fun bs => length bs = 8%nat) (written (events_of 4 a)) /\
  length (written (events_of 4 a)) = (2 * units a)%nat.
Proof.
  destruct a as [s|b|c]; cbn [events_of units].
  - rewrite written_session.
    induction s as [|char s [IH1 IH2]]; [by split|].
    cbn [fmap list_fmap concat]. rewrite written_app, length_app.
    split; [apply Forall_app; split; [|done]|rewrite IH2; cbn; lia].
    repeat constructor.
  - rewrite written_session.
    induction (Z.to_nat b) as [|n [IH1 IH2]]; [by split|].
    cbn [replicate concat]. rewrite written_app, length_app.
    split; [apply Forall_app; split; [|done]|rewrite IH2; cbn; lia].
    repeat constructor.
  - by split.
Qed.

Lemma written_batch (acts : list action) :
  Forall (fun bs => length bs = 8%nat)
         (written (concat (events_of 4 <$> acts))) /\
  length (written (concat (events_of 4 <$> acts))) =
    (2 * sum_list (units <$> acts))%nat.
Proof.
  induction acts as [|a acts [IH1 IH2]]; [by split|].
  cbn [fmap list_fmap concat sum_list]. rewrite written_app, length_app.
  destruct (written_events_of a) as [H1 H2].
  split; [by apply Forall_app|]. rewrite H2, IH2.
  unfold id. lia.
Qed.

(** X18.  On the 32-bit target every batch costs 16 bytes for each unit:
    draining the enqueued actions makes two writes of 8 bytes for each
    character and each backspace, and none for a key combination. *)
Theorem batch_writes_two_records_per_unit (long_size : nat)
    (acts : list action) (fuel : nat) (w : t) :
  long_size = 4%nat -> _buffer w = [] -> out w = [] ->
  (length acts <= fuel)%nat ->
  exists w',
    drain long_size fuel (enqueue_all acts w) = Some w' /\
    Forall (fun bs => length bs = 8%nat) (written (out w')) /\
    length (written (out w')) = (2 * sum_list (units <$> acts))%nat.
Proof.
  intros -> Hb Ho Hf. destruct w as [b o]. cbn in Hb, Ho. subst b o.
  rewrite enqueue_all_spec. cbn [_buffer out]. rewrite app_nil_r.
  rewrite drain_spec, handle_all_spec by done. eexists.
  split; [reflexivity|]. cbn [out app]. apply written_batch.
Qed.

Lemma batch_writes_two_records_per_unit_witness :
  let acts := [act_string (str "ab"); act_keycombo (str "x");
               act_backspace 2] in
  exists w',
    drain 4 3 (enqueue_all acts init) = Some w' /\
    Forall (fun bs => length bs = 8%nat) (written (out w')) /\
    length (written (out w')) = (2 * sum_list (units <$> acts))%nat.
Proof.
  intros acts. apply (batch_writes_two_records_per_unit 4 acts 3 init).
  - reflexivity.
  - reflexivity.
  - reflexivity.
  - simpl. lia.
Defined.

(** X19.  Draining twice is draining once: a batch drained, then a second
    batch enqueued and drained, leaves what draining the two batches
    together leaves.  The order of the output does not depend on when the
    worker wakes up. *)
Theorem drains_compose (long_size : nat) (acts1 acts2 : list action)
    (f1 f2 : nat) (w : t) :
  _buffer w = [] ->
  (length acts1 <= f1)%nat -> (length acts2 <= f2)%nat ->
  (drain long_size f1 (enqueue_all acts1 w) ≫=
     fun w1 => drain long_size f2 (enqueue_all acts2 w1)) =
  drain long_size (f1 + f2) (enqueue_all (acts1 ++ acts2) w).
Proof.
  intros Hb H1 H2. destruct w as [b o]. cbn in Hb. subst b.
  rewrite !enqueue_all_spec. cbn [_buffer out]. rewrite !app_nil_r.
  rewrite !drain_spec, !handle_all_spec by (rewrite ?length_app; lia).
  cbn [mbind option_bind _buffer out].
  rewrite enqueue_all_spec. cbn [_buffer out]. rewrite app_nil_r.
  rewrite drain_spec, handle_all_spec by done. cbn [_buffer out].
  by rewrite fmap_app, concat_app, app_assoc.
Qed.

Lemma drains_compose_witness :
  let a := act_string (str "a") in
  let b := act_backspace 1 in
  (drain 4 1 (enqueue_all [a] init) ≫=
     fun w1 => drain 4 1 (enqueue_all [b] w1)) =
  drain 4 (1 + 1) (enqueue_all ([a] ++ [b]) init).
Proof.
  intros a b. apply (drains_compose 4 [a] [b] 1 1 init).
  - reflexivity.
  - simpl. lia.
  - simpl. lia.
Defined.

End WorkerMore.

Section MaskRange.
Import TinyMod4Machine.

Lemma log2_lt_16 (x : Z) : 0 <= x < 2 ^ 16 -> Z.log2 x < 16.
Proof.
  intros H. destruct (decide (x = 0)) as [->|Hx]; [done|].
  apply Z.log2_lt_pow2; lia.
Qed.

(** X20.  The readings fit their fields: when each pin reads 0 or 1 the
    inverted pin mask has nine bits, and when the two registers read bytes
    the inverted expander mask has sixteen. *)
Theorem masks_fit_their_fields (h : hw) :
  Forall (fun pn => io_input h pn.1 = 0 \/ io_input h pn.1 = 1) pin_names ->
  0 <= read_byte_data h 0x20 0x12 < 256 ->
  0 <= read_byte_data h 0x20 0x13 < 256 ->
  0 <= mask_a h < 2 ^ 9 /\ 0 <= mask_b h < 2 ^ 16.
Proof.
  intros H Ha Hb. split.
  - unfold pin_names in H.
    repeat match goal with
           | H : Forall _ (_ :: _) |- _ =>
               let H1 := fresh "B" in apply Forall_cons in H as [H1 H]
           end.
    cbn [fst snd] in *. clear H. unfold mask_a, raw_bits. cbv zeta.
    destruct B as [B|B], B0 as [B0|B0], B1 as [B1|B1], B2 as [B2|B2],
      B3 as [B3|B3], B4 as [B4|B4], B5 as [B5|B5], B6 as [B6|B6],
      B7 as [B7|B7];
      rewrite B, B0, B1, B2, B3, B4, B5, B6, B7; vm_compute;
      split; congruence.
  - unfold mask_b, expander_word. cbv zeta.
    set (ra := read_byte_data h 0x20 0x12) in *.
    set (rb := read_byte_data h 0x20 0x13) in *.
    assert (0 <= Z.shiftl rb 8 < 2 ^ 16) as Hs.
    { rewrite Z.shiftl_mul_pow2 by lia. lia. }
    assert (0 <= Z.lor ra (Z.shiftl rb 8)) as Hw0 by (apply Z.lor_nonneg; lia).
    assert (0 <= Z.lxor (Z.lor ra (Z.shiftl rb 8)) 0xffff) as Hx0
      by (apply Z.lxor_nonneg; lia).
    split; [done|].
    destruct (decide (Z.lxor (Z.lor ra (Z.shiftl rb 8)) 0xffff = 0)) as [->|Hne];
      [done|].
    apply Z.log2_lt_pow2; [lia|].
    eapply Z.le_lt_trans; [apply Z.log2_lxor; lia|].
    apply Z.max_lub_lt; [|done].
    rewrite Z.log2_lor by lia.
    apply Z.max_lub_lt; apply log2_lt_16; lia.
Qed.

Lemma masks_fit_their_fields_witness :
  0 <= mask_a (board 1 0x1ef 0xfdf7) < 2 ^ 9 /\
  0 <= mask_b (board 1 0x1ef 0xfdf7) < 2 ^ 16.
Proof.
  apply (masks_fit_their_fields (board 1 0x1ef 0xfdf7)).
  - unfold pin_names.
    repeat (apply List.Forall_cons); [..|apply List.Forall_nil];
      vm_compute; auto.
  - vm_compute. split; congruence.
  - vm_compute. split; congruence.
Defined.

End MaskRange.
